(** * Harper-Checker: overlay rendering and the auto-correct state machine

    A shallow embedding of [content-script.js]: the analyzer gateway
    ([analyzeText], [processElement]), the overlay markup builder
    ([renderErrors]), the text replacement primitive
    ([applyTextReplacement]) and the single-slot auto-correct / revert
    machine ([findWordStart], [tryAutoCorrect], [tryRevertCorrection]).

    Conventions.
    - A JavaScript string is the list of its UTF-16 code units, each a
      number in [N]; [length], [slice], [substring], [charAt] and indexing
      count code units, as the host does.
    - Offsets that come from the analyzer or from the caret are unsigned
      integers ([nat]); the arguments of [applyTextReplacement] are
      JavaScript numbers, which may also be [NaN] ([jsnum]).
    - An element is a record carrying its identity, its text, its caret and
      its overlay; the page-wide variables ([window._harperErrorMap],
      [window._autoCorrectEnabled], [window._lastAutoCorrection]) are a
      record that every operation takes and returns.
    - An async function is cut at its [await]s into the jobs the host
      queues and runs in order; a run of the page is a list of what
      happens on it. *)

From Stdlib Require Import ZArith NArith Lia DecimalString.
From stdpp Require Import base option list sorting gmap strings.

Local Open Scope nat_scope.

(** ** Host strings *)

Abbreviation jsstring := (list N) (only parsing).

(** A string literal of the source, as code units. *)
Definition lit (s : string) : jsstring :=
  Ascii.N_of_ascii <$> String.list_ascii_of_string s.
Arguments lit s%_string.

Definition SPACE : N := 32%N.
Definition DQUOTE : N := 34%N.

(** The character class [\s] of a JavaScript regular expression:
    WhiteSpace and LineTerminator code points. *)
Definition isWhiteSpace (c : N) : bool :=
  ((9 <=? c) && (c <=? 13) || (c =? 32) || (c =? 160) || (c =? 5760)
   || (8192 <=? c) && (c <=? 8202) || (c =? 8232) || (c =? 8233)
   || (c =? 8239) || (c =? 8287) || (c =? 12288) || (c =? 65279))%N.

(** [/\s/.test(text[i])]: an index outside the string reads [undefined],
    which the test turns into the string "undefined": no white space. *)
Definition testWhiteSpaceAt (text : jsstring) (i : nat) : bool :=
  match text !! i with
  | Some c => isWhiteSpace c
  | None => false
  end.

(** [String.prototype.trim]: white space is dropped at both ends. *)
Fixpoint trimStart (s : jsstring) : jsstring :=
  match s with
  | c :: s' => if isWhiteSpace c then trimStart s' else s
  | [] => []
  end.

Definition trim (s : jsstring) : jsstring :=
  reverse (trimStart (reverse (trimStart s))).

(** JavaScript numbers that are used as offsets: integers, or [NaN]. *)
Inductive jsnum : Type :=
  | NaN
  | Num (z : Z).

Definition isNaN (n : jsnum) : bool :=
  match n with NaN => true | Num _ => false end.

Definition addNum (n : jsnum) (k : nat) : jsnum :=
  match n with NaN => NaN | Num z => Num (z + Z.of_nat k) end.

(** [ToIntegerOrInfinity] followed by the relative-index clamp of
    [String.prototype.slice]: a negative index counts from the end. *)
Definition relativeIndex (len : nat) (n : jsnum) : nat :=
  match n with
  | NaN => 0
  | Num z =>
      if (z <? 0)%Z then Z.to_nat (Z.max (Z.of_nat len + z) 0)
      else Z.to_nat (Z.min z (Z.of_nat len))
  end.

(** [s.slice(from, to)] and [s.slice(from)]. *)
Definition slice (s : jsstring) (from to : jsnum) : jsstring :=
  let a := relativeIndex (length s) from in
  let b := relativeIndex (length s) to in
  take (b - a) (drop a s).

Definition sliceFrom (s : jsstring) (from : jsnum) : jsstring :=
  drop (relativeIndex (length s) from) s.

(** [s.substring(a, b)] on unsigned offsets: both are clamped to the
    length and swapped when out of order. *)
Definition substring (s : jsstring) (a b : nat) : jsstring :=
  let a' := a `min` length s in
  let b' := b `min` length s in
  take (a' `max` b' - a' `min` b') (drop (a' `min` b') s).

(** ** Word boundaries *)

(** [findWordStart(text, position)]: walk left from [position] while the
    unit before the cursor is not white space. *)
Fixpoint findWordStart (text : jsstring) (position : nat) : nat :=
  match position with
  | 0 => 0
  | S before =>
      if testWhiteSpaceAt text before then position
      else findWordStart text before
  end.


(** ** More of the host library *)

(** [s.charAt(i) === c]; [charAt] out of range is the empty string. *)
Definition charAtIs (s : jsstring) (i : nat) (c : N) : bool :=
  match s !! i with
  | Some d => (d =? c)%N
  | None => false
  end.

Fixpoint startsWith (pat s : jsstring) : bool :=
  match pat, s with
  | [], _ => true
  | p :: pat', c :: s' => (p =? c)%N && startsWith pat' s'
  | _ :: _, [] => false
  end.

(** [s.includes(pat)]. *)
Fixpoint includes (s pat : jsstring) : bool :=
  startsWith pat s ||
  match s with
  | [] => false
  | _ :: s' => includes s' pat
  end.

(** [toLowerCase] on the Latin capitals; lint kinds are ASCII identifiers
    of the analyzer, other units are left as they are. *)
Definition toLowerCase (s : jsstring) : jsstring :=
  (fun c => if (65 <=? c) && (c <=? 90) then c + 32 else c)%N <$> s.

(** A number in a template literal: its decimal digits. *)
Definition decimal (n : nat) : jsstring :=
  lit (NilEmpty.string_of_uint (Nat.to_uint n)).

Definition isLeadSurrogate (c : N) : bool := ((55296 <=? c) && (c <=? 56319))%N.
Definition isTrailSurrogate (c : N) : bool := ((56320 <=? c) && (c <=? 57343))%N.

Definition hexLower (d : N) : N := (if d <? 10 then 48 + d else 87 + d)%N.
Definition hexUpper (d : N) : N := (if d <? 10 then 48 + d else 55 + d)%N.

(** [UnicodeEscape]: backslash, u and four lower-case hex digits. *)
Definition unicodeEscape (c : N) : jsstring :=
  [92; 117; hexLower (c / 4096 mod 16); hexLower (c / 256 mod 16);
   hexLower (c / 16 mod 16); hexLower (c mod 16)]%N.

(** One unit that is not a surrogate, as [QuoteJSONString] writes it. *)
Definition quoteUnit (c : N) : jsstring :=
  (if c =? 8 then [92; 98]
   else if c =? 9 then [92; 116]
   else if c =? 10 then [92; 110]
   else if c =? 12 then [92; 102]
   else if c =? 13 then [92; 114]
   else if c =? 34 then [92; 34]
   else if c =? 92 then [92; 92]
   else if c <? 32 then unicodeEscape c
   else [c])%N.

(** The body of [QuoteJSONString]: a surrogate pair is kept, a lone
    surrogate is escaped. *)
Fixpoint quoteUnits (s : jsstring) : jsstring :=
  match s with
  | [] => []
  | c :: rest =>
      if isLeadSurrogate c then
        match rest with
        | d :: rest' =>
            if isTrailSurrogate d then c :: d :: quoteUnits rest'
            else unicodeEscape c ++ quoteUnits rest
        | [] => unicodeEscape c
        end
      else if isTrailSurrogate c then unicodeEscape c ++ quoteUnits rest
      else quoteUnit c ++ quoteUnits rest
  end.

Definition quoteJSONString (s : jsstring) : jsstring :=
  [DQUOTE] ++ quoteUnits s ++ [DQUOTE].

Fixpoint joinWith (sep : jsstring) (parts : list jsstring) : jsstring :=
  match parts with
  | [] => []
  | [x] => x
  | x :: rest => x ++ sep ++ joinWith sep rest
  end.

(** [JSON.stringify] of an array of strings. *)
Definition JSON_stringify (xs : list jsstring) : jsstring :=
  [91%N] ++ joinWith [44%N] (quoteJSONString <$> xs) ++ [93%N].

(** The units [encodeURIComponent] leaves alone: letters, digits and
    [-_.!~*'()]. *)
Definition isUnreserved (c : N) : bool :=
  ((48 <=? c) && (c <=? 57) || (65 <=? c) && (c <=? 90)
   || (97 <=? c) && (c <=? 122)
   || (c =? 45) || (c =? 95) || (c =? 46) || (c =? 33) || (c =? 126)
   || (c =? 42) || (c =? 39) || (c =? 40) || (c =? 41))%N.

Definition utf8 (cp : N) : list N :=
  (if cp <? 128 then [cp]
   else if cp <? 2048 then [192 + cp / 64; 128 + cp mod 64]
   else if cp <? 65536 then
     [224 + cp / 4096; 128 + cp / 64 mod 64; 128 + cp mod 64]
   else
     [240 + cp / 262144; 128 + cp / 4096 mod 64; 128 + cp / 64 mod 64;
      128 + cp mod 64])%N.

Definition percentEncode (cp : N) : jsstring :=
  utf8 cp ≫= (fun b => [37; hexUpper (b / 16); hexUpper (b mod 16)]%N).

(** [encodeURIComponent]; [None] is the [URIError] it throws at a
    surrogate that has no partner. *)
Fixpoint encodeURIComponent (s : jsstring) : option jsstring :=
  match s with
  | [] => Some []
  | c :: rest =>
      if isUnreserved c then (c ::.) <$> encodeURIComponent rest
      else if isTrailSurrogate c then None
      else if isLeadSurrogate c then
        match rest with
        | d :: rest' =>
            if isTrailSurrogate d then
              let cp := ((c - 55296) * 1024 + (d - 56320) + 65536)%N in
              (percentEncode cp ++.) <$> encodeURIComponent rest'
            else None
        | [] => None
        end
      else (percentEncode c ++.) <$> encodeURIComponent rest
  end.

(** A string in which every surrogate has its partner: the strings
    [encodeURIComponent] accepts. *)
Fixpoint wellFormedUnicode (s : jsstring) : bool :=
  match s with
  | [] => true
  | c :: rest =>
      if isLeadSurrogate c then
        match rest with
        | d :: rest' => isTrailSurrogate d && wellFormedUnicode rest'
        | [] => false
        end
      else negb (isTrailSurrogate c) && wellFormedUnicode rest
  end.

(** ** The analyzer gateway *)

(** A lint as the analyzer hands it out: [span()], [lint_kind()] and the
    replacement texts of [suggestions()]. *)
Record Lint : Type := {
  span_start : nat;
  span_end : nat;
  lint_kind : jsstring;
  lint_suggestions : list jsstring
}.

(** [window.harperLinter.lint(text, Plain)]: [None] when the call throws. *)
Abbreviation Linter := (jsstring -> option (list Lint)) (only parsing).

(** What a call of [analyzeText] leaves behind: the array its promise
    resolves to ([None] would be a rejection), and the texts that were
    handed to the analyzer on the way. *)
Record Analysis : Type := {
  resolved : option (list Lint);
  lintCalls : list jsstring
}.

(** [analyzeText(text)], once [window.harperReady] has settled;
    [harperLinter] is [None] when the initialization failed. *)
Definition analyzeText (harperLinter : option Linter) (text : jsstring)
  : Analysis :=
  match harperLinter with
  | None => {| resolved := Some []; lintCalls := [] |}
  | Some lint =>
      if length (trim text) =? 0 then
        {| resolved := Some []; lintCalls := [] |}
      else
        match lint text with
        | Some lints => {| resolved := Some lints; lintCalls := [text] |}
        | None => {| resolved := Some []; lintCalls := [text] |}
        end
  end.

(** The array a caller of [analyzeText] continues with. *)
Definition lintsOf (a : Analysis) : list Lint := default [] (resolved a).

(** ** Rendering *)

Definition getErrorColor (kindRaw : jsstring) : jsstring :=
  let kind := toLowerCase kindRaw in
  if includes kind (lit "spell") then lit "red"
  else if includes kind (lit "word") then lit "green"
  else if includes kind (lit "style") then lit "orange"
  else if includes kind (lit "repetition") then lit "blue"
  else lit "gray".

(** [errors.sort((a, b) => b.span().start - a.span().start)]: the stable
    sort by descending start. *)
Fixpoint insertByStart (x : Lint) (sorted : list Lint) : list Lint :=
  match sorted with
  | [] => [x]
  | y :: rest =>
      if span_start y <=? span_start x then x :: sorted
      else y :: insertByStart x rest
  end.

Definition sortByStartDescending (errors : list Lint) : list Lint :=
  foldr insertByStart [] errors.

(** The tag that wraps one error, as the template literal spells it. *)
Definition spanHtml (text : jsstring) (error : Lint)
  (suggestionsJson : jsstring) : jsstring :=
  lit "<span class=" ++ [DQUOTE] ++ lit "harper-error" ++ [DQUOTE] ++ [10%N]
  ++ lit "      style=" ++ [DQUOTE]
  ++ lit "text-decoration: underline; text-decoration-color: "
  ++ getErrorColor (lint_kind error)
  ++ lit "; text-decoration-style: solid;" ++ [DQUOTE] ++ [10%N]
  ++ lit "      data-suggestions=" ++ [DQUOTE] ++ suggestionsJson
  ++ [DQUOTE] ++ [10%N]
  ++ lit "      data-start=" ++ [DQUOTE] ++ decimal (span_start error)
  ++ [DQUOTE] ++ lit " data-end=" ++ [DQUOTE] ++ decimal (span_end error)
  ++ [DQUOTE] ++ lit ">"
  ++ slice text (Num (Z.of_nat (span_start error)))
       (Num (Z.of_nat (span_end error)))
  ++ lit "</span>".

(** One turn of the [forEach]: the error's span of the markup built so far
    is cut out and its tag spliced in. *)
Definition spliceError (text : jsstring) (html : option jsstring)
  (error : Lint) : option jsstring :=
  h ← html;
  suggestionsJson ←
    encodeURIComponent (JSON_stringify (lint_suggestions error));
  Some (slice h (Num 0) (Num (Z.of_nat (span_start error)))
        ++ spanHtml text error suggestionsJson
        ++ sliceFrom h (Num (Z.of_nat (span_end error)))).

(** The markup [renderErrors] assigns to the overlay's [innerHTML]. *)
Definition renderMarkup (text : jsstring) (errors : list Lint)
  : option jsstring :=
  foldl (spliceError text) (Some text) (sortByStartDescending errors).

(** The order in which the spans are processed, and a record that lies
    within the text. *)
Definition descending (a b : Lint) : Prop := span_start b <= span_start a.

Definition withinText (text : jsstring) (error : Lint) : Prop :=
  span_start error <= span_end error <= length text.

(** ** Text surfaces *)

Inductive SurfaceKind : Type :=
  | PlainField      (* input or textarea: [value], [selectionStart] *)
  | EditableRegion. (* [contenteditable]: [innerText], the selection *)

(** An element as the script sees it. [content] is [value] or
    [innerText]. [caret] is [selectionStart] or, for an editable region,
    what [getCaretPositionContentEditable] returns: the number of units of
    text before the caret, which is a linear offset into [content] as long
    as the region holds one line of text in one text node.
    [harperOverlay] is the [innerHTML] of the overlay once it exists;
    [overlayCreatable] tells whether the page lets [ensureOverlay] build
    one. *)
Record Surface : Type := {
  ident : nat;
  kind : SurfaceKind;
  content : jsstring;
  caret : nat;
  focused : bool;
  harperOverlay : option jsstring;
  overlayCreatable : bool;
  outlined : bool
}.

Definition withText (el : Surface) (text : jsstring) (pos : nat) : Surface :=
  {| ident := ident el; kind := kind el; content := text; caret := pos;
     focused := focused el; harperOverlay := harperOverlay el;
     overlayCreatable := overlayCreatable el; outlined := outlined el |}.

Definition withOverlay (el : Surface) (html : option jsstring)
  (outline : bool) : Surface :=
  {| ident := ident el; kind := kind el; content := content el;
     caret := caret el; focused := focused el; harperOverlay := html;
     overlayCreatable := overlayCreatable el; outlined := outline |}.

(** [ensureOverlay(element)]: nothing to do when the overlay exists;
    a failed creation is caught and leaves the element without one. *)
Definition ensureOverlay (el : Surface) : Surface :=
  match harperOverlay el with
  | Some _ => el
  | None =>
      if overlayCreatable el then withOverlay el (Some []) (outlined el)
      else el
  end.

(** [renderErrors(element, text, errors)]. Without an overlay the outline
    stands in for the highlights. When building the markup throws, the
    overlay keeps what it showed. *)
Definition renderErrors (el : Surface) (text : jsstring)
  (errors : list Lint) : Surface :=
  let el := ensureOverlay el in
  match harperOverlay el with
  | None => withOverlay el None (0 <? length errors)
  | Some old =>
      match renderMarkup text errors with
      | Some html => withOverlay el (Some html) (outlined el)
      | None => el
      end
  end.

(** ** From linear offsets to text nodes *)

(** A line break in a string that is assigned to [innerText]. *)
Definition isLineBreak (c : N) : bool := ((c =? 10) || (c =? 13))%N.

(** The text nodes an editable region holds after
    [element.innerText = text]: the runs of units between line breaks, in
    order, where an empty run gives no node; the line breaks themselves
    become [br] elements. [run] is the run collected so far. *)
Fixpoint textRuns (text run : jsstring) : list jsstring :=
  match text with
  | [] => match run with [] => [] | _ => [run] end
  | c :: rest =>
      if isLineBreak c then
        match run with
        | [] => textRuns rest []
        | _ => run :: textRuns rest []
        end
      else textRuns rest (run ++ [c])
  end.

Definition textNodes (text : jsstring) : list jsstring := textRuns text [].

(** The tree walk of [applyTextReplacement] over the text nodes of an
    editable region: the first node with [newPos <= nextCharCount], as
    its index, and the offset inside it. *)
Fixpoint findCaretNode (nodes : list jsstring) (newPos charCount : Z)
  (index : nat) : option (nat * Z) :=
  match nodes with
  | [] => None
  | node :: rest =>
      let nextCharCount := (charCount + Z.of_nat (length node))%Z in
      if (newPos <=? nextCharCount)%Z
      then Some (index, (newPos - charCount)%Z)
      else findCaretNode rest newPos nextCharCount (S index)
  end.

(** The number of units in the nodes before node [index]. *)
Definition unitsBefore (nodes : list jsstring) (index : nat) : Z :=
  Z.of_nat (length (concat (take index nodes))).

(** Where [applyTextReplacement] leaves the caret of an editable region
    whose text nodes are [nodes], counted as
    [getCaretPositionContentEditable] reads it: the units of text that
    stand before the caret. When the walk finds a node,
    [range.setStart(targetNode, targetOffset)] puts the caret that far into
    it; a negative offset makes [setStart] throw, which is caught, and the
    caret stays at the start, where the assignment of [innerText] left it.
    When the walk finds no node the selection is collapsed to the end of
    the contents. [NaN] fails every comparison of the walk. *)
Definition caretByWalk (nodes : list jsstring) (newPos : jsnum) : nat :=
  match newPos with
  | NaN => length (concat nodes)
  | Num z =>
      match findCaretNode nodes z 0 0 with
      | Some (index, targetOffset) =>
          if (0 <=? targetOffset)%Z
          then Z.to_nat (unitsBefore nodes index + targetOffset)
          else 0
      | None => length (concat nodes)
      end
  end.

(** Where the caret lands when the script asks for offset [newPos]. A
    plain field of [len] units takes [selectionStart] as an unsigned 32-bit
    number ([NaN] reads 0) and clamps it to the length. For an editable
    region this is the walk in closed form, [len] being the number of
    units its text nodes hold, line breaks left out: the walk stops at a
    node when [newPos <= len], and in every other case the selection is
    collapsed to the end of the contents. *)
Definition placeCaret (k : SurfaceKind) (len : nat) (newPos : jsnum) : nat :=
  match k, newPos with
  | PlainField, NaN => 0
  | PlainField, Num z => Z.to_nat (Z.min (z mod 2 ^ 32) (Z.of_nat len))
  | EditableRegion, NaN => len
  | EditableRegion, Num z =>
      if (z <=? Z.of_nat len)%Z then
        if (0 <=? z)%Z then Z.to_nat z else 0
      else len
  end.

(** The caret right after the text is assigned: [value = ...] moves it to
    the end, [innerText = ...] replaces the nodes it pointed into and
    leaves it at the start. *)
Definition caretAfterAssignment (k : SurfaceKind) (len : nat) : nat :=
  match k with
  | PlainField => len
  | EditableRegion => 0
  end.

(** [applyTextReplacement(element, start, end, replacementText)]. Both
    branches of the source, for an editable region and for a field, check
    the offsets, build the new text, assign it and then place the caret
    when the element has the focus: a field through [selectionStart], an
    editable region through the walk over the text nodes the assignment
    has made. [content] of the result is the string that was assigned. *)
Definition applyTextReplacement (el : Surface) (start stop : jsnum)
  (replacementText : jsstring) : Surface :=
  let oldText := content el in
  if isNaN start || isNaN stop then el
  else
    let newText :=
      slice oldText (Num 0) start ++ replacementText
      ++ sliceFrom oldText stop in
    let newPos := addNum start (length replacementText) in
    withText el newText
      (if focused el then
         match kind el with
         | PlainField => placeCaret PlainField (length newText) newPos
         | EditableRegion => caretByWalk (textNodes newText) newPos
         end
       else caretAfterAssignment (kind el) (length newText)).

(** ** Page-wide state *)

(** An entry of [window._harperErrorMap]. *)
Record ErrorRecord : Type := {
  err_start : nat;
  err_end : nat;
  err_suggestions : list jsstring
}.

(** [window._lastAutoCorrection]. *)
Record Correction : Type := {
  corr_element : nat;
  originalWord : jsstring;
  correctedWord : jsstring;
  position_start : nat;
  position_end : nat;
  timestamp : nat
}.

Record Globals : Type := {
  harperErrorMap : gmap nat (list ErrorRecord);
  autoCorrectEnabled : bool;
  lastAutoCorrection : option Correction
}.

Definition setErrorMap (g : Globals) (m : gmap nat (list ErrorRecord))
  : Globals :=
  {| harperErrorMap := m; autoCorrectEnabled := autoCorrectEnabled g;
     lastAutoCorrection := lastAutoCorrection g |}.

Definition setLastAutoCorrection (g : Globals) (c : option Correction)
  : Globals :=
  {| harperErrorMap := harperErrorMap g;
     autoCorrectEnabled := autoCorrectEnabled g;
     lastAutoCorrection := c |}.

Definition toErrorRecord (e : Lint) : ErrorRecord :=
  {| err_start := span_start e; err_end := span_end e;
     err_suggestions := lint_suggestions e |}.

(** ** Analysis passes *)

(** [processElement] reads the text when it is called and suspends at
    [await analyzeText(text)]; what follows the [await] runs when the pass
    resolves. A pass in flight carries the element and the text it read. *)
Record Pass : Type := {
  pass_element : nat;
  pass_text : jsstring
}.

Definition startPass (el : Surface) : Pass :=
  {| pass_element := ident el; pass_text := content el |}.

(** The part of [processElement] after the [await]: the records are stored
    under the element and the overlay is rebuilt from the text of the
    pass. [el] is the element as it is when the pass resolves. *)
Definition resolvePass (harperLinter : option Linter) (p : Pass)
  (g : Globals) (el : Surface) : Globals * Surface :=
  let errors := lintsOf (analyzeText harperLinter (pass_text p)) in
  (setErrorMap g
     (<[pass_element p := toErrorRecord <$> errors]> (harperErrorMap g)),
   renderErrors el (pass_text p) errors).

(** A pass that nothing interleaves with. *)
Definition processElement (harperLinter : option Linter) (g : Globals)
  (el : Surface) : Globals * Surface :=
  resolvePass harperLinter (startPass el) g el.

(** ** Promise jobs

    [processElement] is an async function with one [await], on the promise
    of [analyzeText]; [analyzeText] is an async function with one [await],
    on [window.harperReady], and returns an array on every path, the
    analyzer being called synchronously. What follows an [await] is a job
    that the host queues when the awaited promise is settled, at once when
    it is settled already; jobs run one at a time, in the order in which
    they were queued. *)
Inductive Job : Type :=
  | AfterHarperReady (p : Pass)
      (* [analyzeText] from its [await] to its [return] *)
  | AfterAnalyzeText (p : Pass) (errors : list Lint).
      (* [processElement] from its [await] to its end *)

(** A page with one element under watch. [awaitingHarperReady] holds the
    passes suspended on [window.harperReady] while it is pending, in the
    order in which they got there; [jobs] is the queue of the host, its
    head being the next job to run. *)
Record Page : Type := {
  globals : Globals;
  element : Surface;
  harperReadySettled : bool;
  awaitingHarperReady : list Pass;
  jobs : list Job
}.

(** What happens on the page: the text of the element changes; a
    listener or a timer calls [processElement(element)]; the
    initialization is over, so that [window.harperReady] is settled; the
    host runs the next job of its queue. *)
Inductive Happening : Type :=
  | UserEdits (text : jsstring) (pos : nat)
  | CallProcessElement
  | HarperReadySettles
  | RunJob.

(** The part of [processElement] after the [await], with the array the
    promise of [analyzeText] was fulfilled with. *)
Definition resumeProcessElement (p : Pass) (errors : list Lint)
  (g : Globals) (el : Surface) : Globals * Surface :=
  (setErrorMap g
     (<[pass_element p := toErrorRecord <$> errors]> (harperErrorMap g)),
   renderErrors el (pass_text p) errors).

(** The host runs [job], the head of its queue; [rest] is the queue behind
    it. [harperLinter] is what the initialization has left in
    [window.harperLinter]. A job that ends by fulfilling a promise puts the
    job that waits for it at the end of the queue. *)
Definition runJob (harperLinter : option Linter) (job : Job) (page : Page)
  (rest : list Job) : Page :=
  match job with
  | AfterHarperReady p =>
      let errors := lintsOf (analyzeText harperLinter (pass_text p)) in
      {| globals := globals page; element := element page;
         harperReadySettled := harperReadySettled page;
         awaitingHarperReady := awaitingHarperReady page;
         jobs := rest ++ [AfterAnalyzeText p errors] |}
  | AfterAnalyzeText p errors =>
      let '(g, el) :=
        resumeProcessElement p errors (globals page) (element page) in
      {| globals := g; element := el;
         harperReadySettled := harperReadySettled page;
         awaitingHarperReady := awaitingHarperReady page;
         jobs := rest |}
  end.

(** A call of [processElement] reads the text, calls [analyzeText] and
    is suspended with it at [await window.harperReady]: in the queue when
    that promise is settled, with the promise when it is pending. When the
    promise is settled, what waits for it enters the queue in the order in
    which it came. *)
Definition happen (harperLinter : option Linter) (page : Page)
  (h : Happening) : Page :=
  match h with
  | UserEdits text pos =>
      {| globals := globals page;
         element := withText (element page) text pos;
         harperReadySettled := harperReadySettled page;
         awaitingHarperReady := awaitingHarperReady page;
         jobs := jobs page |}
  | CallProcessElement =>
      let p := startPass (element page) in
      if harperReadySettled page then
        {| globals := globals page; element := element page;
           harperReadySettled := true;
           awaitingHarperReady := awaitingHarperReady page;
           jobs := jobs page ++ [AfterHarperReady p] |}
      else
        {| globals := globals page; element := element page;
           harperReadySettled := false;
           awaitingHarperReady := awaitingHarperReady page ++ [p];
           jobs := jobs page |}
  | HarperReadySettles =>
      if harperReadySettled page then page
      else
        {| globals := globals page; element := element page;
           harperReadySettled := true;
           awaitingHarperReady := [];
           jobs :=
             jobs page ++ (AfterHarperReady <$> awaitingHarperReady page) |}
  | RunJob =>
      match jobs page with
      | [] => page
      | job :: rest => runJob harperLinter job page rest
      end
  end.

Definition run (harperLinter : option Linter) (trace : list Happening)
  (page : Page) : Page :=
  foldl (happen harperLinter) page trace.

(** The page when the script starts to watch the element; [ready] tells
    whether [window.harperReady] is settled by then. *)
Definition watch (ready : bool) (g : Globals) (el : Surface) : Page :=
  {| globals := g; element := el; harperReadySettled := ready;
     awaitingHarperReady := []; jobs := [] |}.


(** The passes of a page that have been started and have not stored their
    records yet, the one started first at the head. *)
Definition analyzed (job : Job) : option Pass :=
  match job with
  | AfterAnalyzeText p _ => Some p
  | AfterHarperReady _ => None
  end.

Definition toAnalyze (job : Job) : option Pass :=
  match job with
  | AfterHarperReady p => Some p
  | AfterAnalyzeText _ _ => None
  end.

Definition passesInFlight (page : Page) : list Pass :=
  omap analyzed (jobs page) ++ omap toAnalyze (jobs page)
  ++ awaitingHarperReady page.


(** ** The auto-correct state machine *)

Definition exactMatch (wordStart caretPos : nat) (err : ErrorRecord) : bool :=
  (err_start err =? wordStart) && (err_end err =? caretPos).

Definition containsWord (wordStart caretPos : nat) (err : ErrorRecord)
  : bool :=
  (err_start err <=? wordStart) && (caretPos <=? err_end err).

Definition hasOverlap (wordStart caretPos : nat) (err : ErrorRecord) : bool :=
  (err_start err <=? caretPos) && (wordStart <? err_end err).

(** The three [errors.find] calls of [tryAutoCorrect], each tried only
    when the one before found nothing. *)
Definition matchError (errors : list ErrorRecord) (wordStart caretPos : nat)
  : option ErrorRecord :=
  match List.find (exactMatch wordStart caretPos) errors with
  | Some err => Some err
  | None =>
      match List.find (containsWord wordStart caretPos) errors with
      | Some err => Some err
      | None => List.find (hasOverlap wordStart caretPos) errors
      end
  end.

(** The caret moved back over the space that triggered the correction. *)
Definition wordEnd (text : jsstring) (caretPos : nat) : nat :=
  if (0 <? caretPos) && charAtIs text (caretPos - 1) SPACE
  then caretPos - 1 else caretPos.

(** [tryAutoCorrect(element)]; [now] is the reading of [Date.now()]. The
    fading highlight and the reprocessing it schedules do not touch the
    text, the caret or the record and are left out. *)
Definition tryAutoCorrect (now : nat) (g : Globals) (el : Surface)
  : bool * Globals * Surface :=
  if negb (autoCorrectEnabled g) then (false, g, el)
  else
    match harperErrorMap g !! ident el with
    | None => (false, g, el)
    | Some errors =>
        let text := content el in
        let caretPos := wordEnd text (caret el) in
        let wordStart := findWordStart text caretPos in
        if wordStart =? caretPos then (false, g, el)
        else
          let currentWord := substring text wordStart caretPos in
          if length (trim currentWord) =? 0 then (false, g, el)
          else
            match matchError errors wordStart caretPos with
            | None => (false, g, el)
            | Some error =>
                match err_suggestions error with
                | [] => (false, g, el)
                | suggestion :: _ =>
                    let originalWord :=
                      substring text (err_start error) (err_end error) in
                    let replacementWithSpace := suggestion ++ [SPACE] in
                    let correction :=
                      {| corr_element := ident el;
                         originalWord := originalWord;
                         correctedWord := suggestion;
                         position_start := err_start error;
                         position_end :=
                           err_start error + length replacementWithSpace;
                         timestamp := now |} in
                    (true,
                     setLastAutoCorrection g (Some correction),
                     applyTextReplacement el
                       (Num (Z.of_nat (err_start error)))
                       (Num (Z.of_nat (err_end error)))
                       replacementWithSpace)
                end
            end
    end.

(** [Math.abs(a - b)] on unsigned offsets. *)
Definition distance (a b : nat) : nat := (a - b) + (b - a).

(** [tryRevertCorrection(element)]. *)
Definition tryRevertCorrection (g : Globals) (el : Surface)
  : bool * Globals * Surface :=
  match lastAutoCorrection g with
  | None => (false, g, el)
  | Some correction =>
      if negb (corr_element correction =? ident el) then (false, g, el)
      else
        let caretPos := caret el in
        let expectedPosAfterBackspace :=
          position_start correction + length (correctedWord correction) in
        if negb (caretPos =? expectedPosAfterBackspace) then
          (false,
           (if 2 <? distance caretPos expectedPosAfterBackspace
            then setLastAutoCorrection g None else g),
           el)
        else
          (true,
           setLastAutoCorrection g None,
           applyTextReplacement el
             (Num (Z.of_nat (position_start correction)))
             (Num (Z.of_nat (position_end correction)))
             (originalWord correction))
  end.

(** ** Input events *)

Inductive InputEvent : Type :=
  | InsertText (data : jsstring)
  | DeleteContentBackward
  | OtherInput.

(** What the listener leaves on the timer queue. *)
Inductive Scheduled : Type :=
  | ReprocessSoon       (* [setTimeout(..., 0)] after a correction or a revert *)
  | ReprocessDebounced. (* the 300 ms debounce *)

Definition isSpace (data : jsstring) : bool :=
  match data with
  | [c] => (c =? SPACE)%N
  | _ => false
  end.

(** The [input] listener together with the microtask it queues, which runs
    before the next event is delivered. *)
Definition onInput (harperLinter : option Linter) (now : nat)
  (ev : InputEvent) (g : Globals) (el : Surface)
  : Globals * Surface * Scheduled :=
  match ev with
  | InsertText data =>
      if autoCorrectEnabled g && isSpace data then
        let '(g1, el1) := processElement harperLinter g el in
        let '(correctionApplied, g2, el2) := tryAutoCorrect now g1 el1 in
        (g2, el2,
         if correctionApplied then ReprocessSoon else ReprocessDebounced)
      else (g, el, ReprocessDebounced)
  | DeleteContentBackward =>
      match lastAutoCorrection g with
      | Some _ =>
          let '(reversionApplied, g1, el1) := tryRevertCorrection g el in
          (g1, el1,
           if reversionApplied then ReprocessSoon else ReprocessDebounced)
      | None => (g, el, ReprocessDebounced)
      end
  | OtherInput => (g, el, ReprocessDebounced)
  end.

(** What the browser has done to an input or a textarea by the time the
    listener runs, for a collapsed selection: the typed text is inserted
    at the caret, a backspace removes the unit before it. An editable
    region is edited by the browser on its tree of nodes and read back
    through [innerText] as it is rendered; a [Surface] holds neither, and
    no edit is given for it. *)
Definition typeText (data : jsstring) (el : Surface) : option Surface :=
  match kind el with
  | PlainField =>
      Some (withText el (take (caret el) (content el) ++ data
                         ++ drop (caret el) (content el))
              (caret el + length data))
  | EditableRegion => None
  end.

Definition pressBackspace (el : Surface) : option Surface :=
  match kind el with
  | PlainField =>
      Some match caret el with
           | 0 => el
           | S before =>
               withText el
                 (take before (content el) ++ drop (caret el) (content el))
                 before
           end
  | EditableRegion => None
  end.

(** A key stroke in a field: the edit, then the [input] event. *)
Definition keySpace (harperLinter : option Linter) (now : nat)
  (g : Globals) (el : Surface) : option (Globals * Surface * Scheduled) :=
  onInput harperLinter now (InsertText [SPACE]) g <$> typeText [SPACE] el.

Definition keyBackspace (harperLinter : option Linter) (now : nat)
  (g : Globals) (el : Surface) : option (Globals * Surface * Scheduled) :=
  onInput harperLinter now DeleteContentBackward g <$> pressBackspace el.

(** ** The matching policy in the words of the specification

    The policy as the specification words it, to compare [matchError]
    with: (1) the span equals the word boundaries [[wordStart, caretPos)],
    (2) the span contains them, (3) the span and the boundaries overlap,
    which for half-open ranges means that some offset lies in both. *)

Definition spansOverlap (start1 stop1 start2 stop2 : nat) : bool :=
  start1 `max` start2 <? stop1 `min` stop2.

Definition spec_exact (wordStart caretPos : nat) (err : ErrorRecord) : bool :=
  (err_start err =? wordStart) && (err_end err =? caretPos).

Definition spec_contains (wordStart caretPos : nat) (err : ErrorRecord)
  : bool :=
  (err_start err <=? wordStart) && (caretPos <=? err_end err).

Definition spec_overlaps (wordStart caretPos : nat) (err : ErrorRecord)
  : bool :=
  spansOverlap (err_start err) (err_end err) wordStart caretPos.

Definition spec_matchError (errors : list ErrorRecord)
  (wordStart caretPos : nat) : option ErrorRecord :=
  match List.find (spec_exact wordStart caretPos) errors with
  | Some err => Some err
  | None =>
      match List.find (spec_contains wordStart caretPos) errors with
      | Some err => Some err
      | None => List.find (spec_overlaps wordStart caretPos) errors
      end
  end.

(** ** Reading the overlay markup back

    Two checks on what is assigned to [innerHTML]. [balancedSpans]: every
    closing tag of a span closes one that is open, and none stays open.
    [visibleText]: the text between the tags, which the overlay lays out
    over the element. *)

Fixpoint spanDepth (html : jsstring) (depth : nat) : option nat :=
  match html with
  | [] => Some depth
  | _ :: rest =>
      if startsWith (lit "</span>") html then
        match depth with
        | 0 => None
        | S outer => spanDepth rest outer
        end
      else if startsWith (lit "<span") html then spanDepth rest (S depth)
      else spanDepth rest depth
  end.

Definition balancedSpans (html : jsstring) : bool :=
  match spanDepth html 0 with
  | Some 0 => true
  | _ => false
  end.

Fixpoint textOutsideTags (html : jsstring) (inTag : bool) : jsstring :=
  match html with
  | [] => []
  | c :: rest =>
      if inTag then textOutsideTags rest (negb (c =? 62)%N)
      else if (c =? 60)%N then textOutsideTags rest true
      else c :: textOutsideTags rest false
  end.

Definition visibleText (html : jsstring) : jsstring :=
  textOutsideTags html false.

Definition validMarkup (text html : jsstring) : bool :=
  balancedSpans html && bool_decide (visibleText html = text).

(** ** Scenarios *)

Definition surface (k : SurfaceKind) (text : jsstring) (pos : nat)
  : Surface :=
  {| ident := 1; kind := k; content := text; caret := pos; focused := true;
     harperOverlay := None; overlayCreatable := true; outlined := false |}.

Definition idle : Globals :=
  {| harperErrorMap := ∅; autoCorrectEnabled := true;
     lastAutoCorrection := None |}.

(** An analyzer that flags "has" in "I has a dog" and nothing else. *)
Definition dogAnalyzer : Linter :=
  fun text =>
    if decide (text = lit "I has a dog") then
      Some [{| span_start := 2; span_end := 5; lint_kind := lit "Grammar";
               lint_suggestions := [lit "have"] |}]
    else Some [].

(** An analyzer that flags "teh" at the start of a text. *)
Definition tehAnalyzer : Linter :=
  fun text =>
    if startsWith (lit "teh") text then
      Some [{| span_start := 0; span_end := 3; lint_kind := lit "Spelling";
               lint_suggestions := [lit "the"] |}]
    else Some [].

(** The overlapping records [[0,5)] and [[3,8)]. *)
Definition overlappingLints : list Lint :=
  [ {| span_start := 0; span_end := 5; lint_kind := lit "Spelling";
       lint_suggestions := [] |};
    {| span_start := 3; span_end := 8; lint_kind := lit "Style";
       lint_suggestions := [] |} ].

(** ** The tooltip resolver *)

(** The test of the [errors.find] in [handleContextMenu]: the caret lies
    in the span, both ends included. *)
Definition containsCaret (caretPos : nat) (err : ErrorRecord) : bool :=
  (err_start err <=? caretPos) && (caretPos <=? err_end err).

(** [handleContextMenu(e, element)]: the record the tooltip is shown for,
    if any; an element without an entry in the map has no records. *)
Definition handleContextMenu (g : Globals) (el : Surface)
  : option ErrorRecord :=
  let errors := default [] (harperErrorMap g !! ident el) in
  List.find (containsCaret (caret el)) errors.

(** [/^[.,;:!?]+$/.test(suggestion)]. *)
Definition isPunctuationUnit (c : N) : bool :=
  ((c =? 46) || (c =? 44) || (c =? 59) || (c =? 58) || (c =? 33)
   || (c =? 63))%N.

Definition isPunctuation (suggestion : jsstring) : bool :=
  (0 <? length suggestion) && forallb isPunctuationUnit suggestion.

(** The text a suggestion button of [showTooltip] inserts: punctuation is
    appended to the word the tooltip was opened on. *)
Definition replacementFor (originalWord suggestion : jsstring) : jsstring :=
  if isPunctuation suggestion then originalWord ++ suggestion
  else suggestion.

(** The buttons [showTooltip] builds for a record, each with the text it
    will insert; [originalText] is the text of the element when the
    tooltip opens. *)
Definition suggestionButtons (originalText : jsstring) (error : ErrorRecord)
  : list jsstring :=
  let originalWord :=
    slice originalText (Num (Z.of_nat (err_start error)))
      (Num (Z.of_nat (err_end error))) in
  replacementFor originalWord <$> err_suggestions error.

(** The click handler of a button: the replacement, then a full pass. *)
Definition clickSuggestion (harperLinter : option Linter) (g : Globals)
  (el : Surface) (error : ErrorRecord) (replacementText : jsstring)
  : Globals * Surface :=
  processElement harperLinter g
    (applyTextReplacement el (Num (Z.of_nat (err_start error)))
       (Num (Z.of_nat (err_end error))) replacementText).

(** ** The range of a highlight *)

(** The loop of [positionHighlightContentEditable]: the node and offset
    of the start and of the end of a range; the loop stops at the end
    node. [startNode] is what has been found for the start so far. *)
Fixpoint findRangeNodes (nodes : list jsstring) (start stop currentIndex : Z)
  (index : nat) (startNode : option (nat * Z))
  : option (nat * Z) * option (nat * Z) :=
  match nodes with
  | [] => (startNode, None)
  | node :: rest =>
      let nodeLength := Z.of_nat (length node) in
      let startNode :=
        match startNode with
        | None =>
            if (start <? currentIndex + nodeLength)%Z
            then Some (index, (start - currentIndex)%Z) else None
        | Some found => Some found
        end in
      if (stop <=? currentIndex + nodeLength)%Z
      then (startNode, Some (index, (stop - currentIndex)%Z))
      else findRangeNodes rest start stop (currentIndex + nodeLength)%Z
             (S index) startNode
  end.

(** ** Conditions on what is rendered *)

(** A text that holds no markup of its own: no angle bracket and no
    ampersand. *)
Definition markupFree (text : jsstring) : Prop :=
  Forall (fun c => c <> 60%N /\ c <> 62%N /\ c <> 38%N) text.

(** Two records that share no offset. *)
Definition apart (a b : Lint) : Prop :=
  span_end a <= span_start b \/ span_end b <= span_start a.

(** A record that is not empty and lies within the text. *)
Definition properSpan (text : jsstring) (error : Lint) : Prop :=
  span_start error < span_end error <= length text.

(** What stands between [<span class=] and [>] in the tag of a record. *)
Definition tagAttributes (error : Lint) (suggestionsJson : jsstring)
  : jsstring :=
  [DQUOTE] ++ lit "harper-error" ++ [DQUOTE] ++ [10%N]
  ++ lit "      style=" ++ [DQUOTE]
  ++ lit "text-decoration: underline; text-decoration-color: "
  ++ getErrorColor (lint_kind error)
  ++ lit "; text-decoration-style: solid;" ++ [DQUOTE] ++ [10%N]
  ++ lit "      data-suggestions=" ++ [DQUOTE] ++ suggestionsJson
  ++ [DQUOTE] ++ [10%N]
  ++ lit "      data-start=" ++ [DQUOTE] ++ decimal (span_start error)
  ++ [DQUOTE] ++ lit " data-end=" ++ [DQUOTE] ++ decimal (span_end error)
  ++ [DQUOTE].

(** The units an attribute value is made of in the tag: none of them ends
    the value or the tag. *)
Definition attributeSafe (c : N) : bool :=
  negb ((c =? 60) || (c =? 62) || (c =? 34) || (c =? 38))%N.

(** A unit that neither opens nor closes a tag, and the order in which
    records that are apart come out of the sort: each lies before the
    ones processed before it. *)
Definition noAngle (c : N) : bool := negb ((c =? 60) || (c =? 62))%N.

Definition liesBefore (a b : Lint) : Prop := span_end b <= span_start a.

(** What the markup holds behind the first [bound] units of the text once
    the records from [bound] on are wrapped: its visible text is the rest
    of the text and its tags are balanced. *)
Definition wrappedFrom (text : jsstring) (bound : nat) (tail : jsstring)
  : Prop :=
  textOutsideTags tail false = drop bound text /\
  forall depth, spanDepth tail depth = Some depth.

(** ** Word boundaries: correctness *)

Lemma findWordStart_le text p : findWordStart text p <= p.
Proof.
  induction p as [|p IH]; simpl; [lia|].
  destruct (testWhiteSpaceAt text p); lia.
Qed.

Lemma findWordStart_word text p i :
  findWordStart text p <= i < p -> testWhiteSpaceAt text i = false.
Proof.
  induction p as [|p IH]; simpl; [lia|].
  destruct (testWhiteSpaceAt text p) eqn:Hp; [lia|].
  intros Hi. destruct (decide (i = p)) as [->|Hne]; [exact Hp|].
  apply IH. lia.
Qed.

Lemma findWordStart_boundary text p :
  findWordStart text p = 0 \/
  testWhiteSpaceAt text (findWordStart text p - 1) = true.
Proof.
  induction p as [|p IH]; cbn [findWordStart]; [by left|].
  destruct (testWhiteSpaceAt text p) eqn:Hp; [|exact IH].
  right. by replace (S p - 1) with p by lia.
Qed.

(** C10. For every text and every position [p] within it,
    [findWordStart text p] is an index [s <= p] such that every unit of
    [text[s..p)] is present and is not white space, and either [s = 0] or
    the unit [text[s-1]] is white space: [s] is the start of the word that
    ends at [p]. *)
Theorem findWordStart_spec (text : jsstring) (p : nat) :
  p <= length text ->
  let s := findWordStart text p in
  0 <= s <= p /\
  (forall i, s <= i < p ->
     exists c, text !! i = Some c /\ isWhiteSpace c = false) /\
  (s = 0 \/ exists c, text !! (s - 1) = Some c /\ isWhiteSpace c = true).
Proof.
  intros Hp s. subst s. split; [|split].
  - split; [lia | apply findWordStart_le].
  - intros i Hi.
    pose proof (findWordStart_word text p i Hi) as Hws.
    unfold testWhiteSpaceAt in Hws.
    destruct (text !! i) as [c|] eqn:Hc; [by exists c|].
    apply lookup_ge_None in Hc. lia.
  - destruct (findWordStart_boundary text p) as [H0|Hws]; [by left|].
    right. unfold testWhiteSpaceAt in Hws.
    destruct (text !! (findWordStart text p - 1)) as [c|]; [by exists c|done].
Qed.

Lemma findWordStart_spec_witness :
  let text := lit "I has a dog" in
  findWordStart text 5 = 2 /\
  (forall i, 2 <= i < 5 ->
     exists c, text !! i = Some c /\ isWhiteSpace c = false).
Proof.
  split; [reflexivity|].
  pose proof (findWordStart_spec (lit "I has a dog") 5) as H.
  simpl in H. apply H. vm_compute. lia.
Defined.

(** ** Host strings: slicing with unsigned offsets *)

Lemma relativeIndex_nat len (a : nat) :
  relativeIndex len (Num (Z.of_nat a)) = a `min` len.
Proof.
  unfold relativeIndex.
  destruct (Z.ltb_spec (Z.of_nat a) 0) as [Hneg|_]; lia.
Qed.

Lemma slice_prefix (s : jsstring) (a : nat) :
  slice s (Num 0) (Num (Z.of_nat a)) = take a s.
Proof.
  unfold slice. change (Num 0) with (Num (Z.of_nat 0)).
  rewrite !relativeIndex_nat, Nat.min_0_l, Nat.sub_0_r, drop_0.
  destruct (decide (a <= length s)) as [Hle|Hgt].
  - by rewrite Nat.min_l.
  - rewrite Nat.min_r by lia. by rewrite !take_ge by lia.
Qed.

Lemma sliceFrom_suffix (s : jsstring) (a : nat) :
  sliceFrom s (Num (Z.of_nat a)) = drop a s.
Proof.
  unfold sliceFrom. rewrite relativeIndex_nat.
  destruct (decide (a <= length s)) as [Hle|Hgt].
  - by rewrite Nat.min_l.
  - rewrite Nat.min_r by lia. by rewrite !drop_ge by lia.
Qed.

Lemma slice_span (s : jsstring) (a b : nat) :
  slice s (Num (Z.of_nat a)) (Num (Z.of_nat b)) = take (b - a) (drop a s).
Proof.
  unfold slice. rewrite !relativeIndex_nat.
  destruct (decide (a <= length s)) as [Ha|Ha].
  - rewrite (Nat.min_l a) by lia.
    destruct (decide (b <= length s)) as [Hb|Hb].
    + by rewrite Nat.min_l.
    + rewrite Nat.min_r by lia.
      rewrite !take_ge; [done| |]; rewrite length_drop; lia.
  - rewrite (Nat.min_r a) by lia.
    rewrite !drop_ge by lia. by rewrite !take_nil.
Qed.

Lemma substring_span (s : jsstring) (a b : nat) :
  a <= b -> substring s a b = take (b - a) (drop a s).
Proof.
  intros Hab. unfold substring.
  rewrite (Nat.max_r (a `min` length s)), (Nat.min_l (a `min` length s)) by lia.
  destruct (decide (a <= length s)) as [Ha|Ha].
  - rewrite (Nat.min_l a) by lia.
    destruct (decide (b <= length s)) as [Hb|Hb].
    + by rewrite Nat.min_l.
    + rewrite Nat.min_r by lia.
      rewrite !take_ge; [done| |]; rewrite length_drop; lia.
  - rewrite (Nat.min_r a), (Nat.min_r b) by lia.
    rewrite !drop_ge by lia. by rewrite !take_nil.
Qed.

(** A span and what surrounds it make up the text. *)
Lemma span_decomposition (s : jsstring) (a b : nat) :
  a <= b -> s = take a s ++ take (b - a) (drop a s) ++ drop b s.
Proof.
  intros Hab.
  rewrite <- (take_drop a s) at 1. f_equal.
  rewrite <- (take_drop (b - a) (drop a s)) at 1. f_equal.
  rewrite drop_drop. f_equal. lia.
Qed.

(** ** Host strings: trimming *)

Lemma trimStart_whitespace (s : jsstring) :
  Forall (fun c => isWhiteSpace c = true) s -> trimStart s = [].
Proof.
  induction 1 as [|c s Hc _ IH]; simpl; [done|]. by rewrite Hc.
Qed.

Lemma trim_whitespace (s : jsstring) :
  Forall (fun c => isWhiteSpace c = true) s -> trim s = [].
Proof.
  intros Hs. unfold trim. by rewrite (trimStart_whitespace s Hs).
Qed.

Lemma trimStart_nil_whitespace (s : jsstring) :
  trimStart s = [] -> Forall (fun c => isWhiteSpace c = true) s.
Proof.
  induction s as [|c s IH]; simpl; [constructor|].
  destruct (isWhiteSpace c) eqn:Hc; [|done].
  intros Hs. constructor; auto.
Qed.

(** [text.trim().length === 0] says exactly that the text has nothing but
    white space in it. *)
Lemma trim_empty_iff (s : jsstring) :
  length (trim s) = 0 <-> Forall (fun c => isWhiteSpace c = true) s.
Proof.
  split.
  - intros Hlen. apply length_zero_iff_nil in Hlen.
    unfold trim in Hlen.
    apply (f_equal reverse) in Hlen. rewrite reverse_involutive in Hlen.
    change (reverse []) with (@nil N) in Hlen.
    apply trimStart_nil_whitespace in Hlen.
    rewrite Forall_reverse in Hlen.
    destruct (trimStart s) as [|c rest] eqn:Hts.
    + by apply trimStart_nil_whitespace.
    + exfalso.
      assert (isWhiteSpace c = false) as Hc.
      { clear -Hts. induction s as [|d s IH]; simpl in Hts; [done|].
        destruct (isWhiteSpace d) eqn:Hd; [auto|]. by simplify_eq. }
      apply Forall_cons in Hlen as [Hc' _]. congruence.
  - intros Hs. by rewrite trim_whitespace.
Qed.

(** ** The analyzer gateway: short circuit and failure *)

(** C8. For every text, [analyzeText] resolves to the empty list without
    handing anything to the analyzer when the text is empty or has only
    white space in it; when the analyzer call throws, the exception is
    caught and the result is the empty list; no call of [analyzeText]
    ends in a rejection. *)
Theorem analyzeText_short_circuits_and_catches
  (harperLinter : option Linter) (text : jsstring) :
  (Forall (fun c => isWhiteSpace c = true) text ->
     analyzeText harperLinter text
     = {| resolved := Some []; lintCalls := [] |}) /\
  (forall lint, harperLinter = Some lint -> lint text = None ->
     resolved (analyzeText harperLinter text) = Some []) /\
  is_Some (resolved (analyzeText harperLinter text)).
Proof.
  split; [|split].
  - intros Hws. unfold analyzeText.
    destruct harperLinter as [lint|]; [|done].
    by rewrite (trim_whitespace text Hws).
  - intros lint -> Hthrow. unfold analyzeText.
    destruct (length (trim text) =? 0); [done|]. by rewrite Hthrow.
  - unfold analyzeText. destruct harperLinter as [lint|]; [|by eexists].
    destruct (length (trim text) =? 0); [by eexists|].
    destruct (lint text); by eexists.
Qed.

Lemma analyzeText_short_circuits_and_catches_witness :
  analyzeText (Some (fun _ => None)) (lit "  ")
  = {| resolved := Some []; lintCalls := [] |} /\
  resolved (analyzeText (Some (fun _ => None)) (lit "teh")) = Some [].
Proof.
  pose proof (analyzeText_short_circuits_and_catches
                (Some (fun _ => None)) (lit "  ")) as [Hblank _].
  pose proof (analyzeText_short_circuits_and_catches
                (Some (fun _ => None)) (lit "teh")) as [_ [Hthrow _]].
  split.
  - apply Hblank. repeat constructor.
  - by apply (Hthrow (fun _ => None)).
Defined.

(** ** Text replacement *)

Lemma applyTextReplacement_unsigned (el : Surface) (a b : nat)
  (r : jsstring) :
  content (applyTextReplacement el (Num (Z.of_nat a)) (Num (Z.of_nat b)) r)
  = take a (content el) ++ r ++ drop b (content el).
Proof.
  unfold applyTextReplacement. cbn [withText content].
  by rewrite slice_prefix, sliceFrom_suffix.
Qed.

Lemma applyTextReplacement_ident el start stop r :
  ident (applyTextReplacement el start stop r) = ident el.
Proof. by destruct start, stop. Qed.

(** C5, as the code has it. A replacement is abandoned, and the element
    left exactly as it was, when the start or the end offset is [NaN].
    Every other pair of offsets goes through: the new content is
    [oldText.slice(0, start) + replacementText + oldText.slice(end)],
    where [slice] clamps an offset past the end to the length and counts a
    negative one from the end; for unsigned offsets that is the units
    before [start], the replacement, and the units from [end] on. The new
    content is built in full and assigned once. *)
Theorem applyTextReplacement_guards_NaN_only
  (el : Surface) (start stop : jsnum) (r : jsstring) :
  applyTextReplacement el NaN stop r = el /\
  applyTextReplacement el start NaN r = el /\
  (forall s e : Z,
     content (applyTextReplacement el (Num s) (Num e) r)
     = slice (content el) (Num 0) (Num s) ++ r
       ++ sliceFrom (content el) (Num e)) /\
  (forall a b : nat,
     content (applyTextReplacement el (Num (Z.of_nat a)) (Num (Z.of_nat b)) r)
     = take a (content el) ++ r ++ drop b (content el)).
Proof.
  split; [done|]. split; [by destruct start|].
  split; [done|]. intros a b. apply applyTextReplacement_unsigned.
Qed.

(** C5, as stated, fails: an end offset past the end of the text does not
    stop the replacement. *)
Lemma out_of_range_replacement_is_applied :
  let el := {| ident := 1; kind := PlainField; content := lit "abc";
               caret := 0; focused := false; harperOverlay := None;
               overlayCreatable := true; outlined := false |} in
  length (content el) < 10 /\
  content (applyTextReplacement el (Num 1) (Num 10) (lit "X")) = lit "aX" /\
  content (applyTextReplacement el (Num 1) (Num 10) (lit "X")) <> content el.
Proof. vm_compute. split; [lia|]. split; [done|]. discriminate. Qed.

(** ** Reverting a correction *)

Lemma distance_abs (a b : nat) :
  Z.of_nat (distance a b) = Z.abs (Z.of_nat a - Z.of_nat b).
Proof. unfold distance. lia. Qed.

(** C3. With a correction recorded for the element, [tryRevertCorrection]
    reverts only when the caret is exactly at
    [correction.start + length(correctedWord)]. At any other caret the
    element is left as it is and the call answers [false]; the record is
    dropped when the caret is more than 2 away from that offset and kept
    otherwise. At that offset the text from [correction.start] up to
    [correction.end] is replaced by [originalWord] and the record is
    cleared. *)
Theorem tryRevertCorrection_reverts_only_at_boundary
  (g : Globals) (el : Surface) (c : Correction) :
  lastAutoCorrection g = Some c ->
  corr_element c = ident el ->
  let expected := position_start c + length (correctedWord c) in
  (caret el <> expected ->
     exists g', tryRevertCorrection g el = (false, g', el) /\
       (2 < distance (caret el) expected -> lastAutoCorrection g' = None) /\
       (distance (caret el) expected <= 2 -> g' = g)) /\
  (caret el = expected ->
     exists el',
       tryRevertCorrection g el = (true, setLastAutoCorrection g None, el') /\
       content el'
       = take (position_start c) (content el) ++ originalWord c
         ++ drop (position_end c) (content el)).
Proof.
  intros Hslot Hel expected. unfold tryRevertCorrection. rewrite Hslot, Hel.
  rewrite Nat.eqb_refl. cbn [negb]. fold expected. split.
  - intros Hne. apply Nat.eqb_neq in Hne. rewrite Hne. cbn [negb].
    destruct (Nat.ltb_spec 2 (distance (caret el) expected)) as [Hfar|Hnear].
    + eexists. split; [done|]. split; [done|lia].
    + eexists. split; [done|]. split; [lia|done].
  - intros Heq. apply Nat.eqb_eq in Heq. rewrite Heq. cbn [negb].
    eexists. split; [done|]. apply applyTextReplacement_unsigned.
Qed.

Lemma tryRevertCorrection_reverts_only_at_boundary_witness :
  let c := {| corr_element := 1; originalWord := lit "has";
              correctedWord := lit "have"; position_start := 2;
              position_end := 7; timestamp := 0 |} in
  let g := {| harperErrorMap := ∅; autoCorrectEnabled := true;
              lastAutoCorrection := Some c |} in
  let el := {| ident := 1; kind := PlainField; content := lit "I have";
               caret := 6; focused := true; harperOverlay := None;
               overlayCreatable := true; outlined := false |} in
  exists el',
    tryRevertCorrection g el = (true, setLastAutoCorrection g None, el') /\
    content el' = lit "I has".
Proof.
  intros c g el.
  destruct (tryRevertCorrection_reverts_only_at_boundary g el c
              eq_refl eq_refl) as [_ Hat].
  destruct (Hat eq_refl) as [el' [Hrun Htext]].
  exists el'. split; [exact Hrun|]. rewrite Htext. reflexivity.
Defined.

Lemma tryRevertCorrection_without_record (g : Globals) (el : Surface) :
  (lastAutoCorrection g = None \/
   exists c, lastAutoCorrection g = Some c /\ corr_element c <> ident el) ->
  tryRevertCorrection g el = (false, g, el).
Proof.
  unfold tryRevertCorrection. intros [->|[c [-> Hother]]]; [done|].
  apply Nat.eqb_neq in Hother. by rewrite Hother.
Qed.

(** ** Applying a correction *)

Lemma wordEnd_le (text : jsstring) (caretPos : nat) :
  wordEnd text caretPos <= caretPos.
Proof.
  unfold wordEnd.
  destruct ((0 <? caretPos) && charAtIs text (caretPos - 1) SPACE); lia.
Qed.

(** A word found by [findWordStart] inside the text is not blank. *)
Lemma word_not_blank (text : jsstring) (caretPos : nat) :
  caretPos <= length text ->
  findWordStart text caretPos <> caretPos ->
  length (trim (substring text (findWordStart text caretPos) caretPos)) <> 0.
Proof.
  intros Hin Hword Hblank.
  pose proof (findWordStart_le text caretPos) as Hle.
  apply trim_empty_iff in Hblank.
  rewrite substring_span in Hblank by lia.
  set (wordStart := findWordStart text caretPos) in *.
  assert (exists c, text !! wordStart = Some c /\ isWhiteSpace c = false)
    as (c & Hc & Hnot).
  { pose proof (findWordStart_word text caretPos wordStart) as Hunit.
    unfold testWhiteSpaceAt in Hunit.
    destruct (text !! wordStart) as [c|] eqn:Hc.
    - exists c. split; [done|]. apply Hunit. fold wordStart. lia.
    - apply lookup_ge_None in Hc. lia. }
  assert (take (caretPos - wordStart) (drop wordStart text) !! 0 = Some c)
    as Hfirst.
  { rewrite lookup_take_lt by lia. rewrite lookup_drop.
    by rewrite Nat.add_0_r. }
  rewrite Forall_lookup in Hblank. specialize (Hblank 0 c Hfirst).
  simpl in Hblank. congruence.
Qed.

(** What a successful call of [tryAutoCorrect] has done. *)
Lemma tryAutoCorrect_applied (now : nat) (g g' : Globals)
  (el el' : Surface) :
  tryAutoCorrect now g el = (true, g', el') ->
  exists errors error suggestion rest,
    autoCorrectEnabled g = true /\
    harperErrorMap g !! ident el = Some errors /\
    matchError errors
      (findWordStart (content el) (wordEnd (content el) (caret el)))
      (wordEnd (content el) (caret el)) = Some error /\
    err_suggestions error = suggestion :: rest /\
    g' = setLastAutoCorrection g (Some
           {| corr_element := ident el;
              originalWord :=
                substring (content el) (err_start error) (err_end error);
              correctedWord := suggestion;
              position_start := err_start error;
              position_end := err_start error + length (suggestion ++ [SPACE]);
              timestamp := now |}) /\
    el' = applyTextReplacement el (Num (Z.of_nat (err_start error)))
            (Num (Z.of_nat (err_end error))) (suggestion ++ [SPACE]).
Proof.
  unfold tryAutoCorrect.
  destruct (autoCorrectEnabled g) eqn:Hon; cbn [negb]; [|done].
  destruct (harperErrorMap g !! ident el) as [errors|] eqn:Herrors; [|done].
  destruct (_ =? _); [done|].
  destruct (_ =? 0); [done|].
  destruct (matchError _ _ _) as [error|] eqn:Hmatch; [|done].
  destruct (err_suggestions error) as [|suggestion rest] eqn:Hsugg; [done|].
  intros [= <- <-]. by exists errors, error, suggestion, rest.
Qed.

(** C2. When auto-correct is on and [tryAutoCorrect] finds, for the word
    the caret has just left, an error record with a suggestion, it
    replaces exactly the span [[start, end)] of that record with the first
    suggestion followed by one space, and records a correction whose
    [originalWord] is the text of the replaced span, whose [correctedWord]
    is the suggestion, and whose range runs from [error.start] to
    [error.start + length(suggestion + " ")]. The caret is inside the
    text, as the host keeps it, and the record has [start <= end], as the
    analyzer hands it out. *)
Theorem tryAutoCorrect_replaces_span_with_first_suggestion
  (now : nat) (g : Globals) (el : Surface) (errors : list ErrorRecord)
  (error : ErrorRecord) (suggestion : jsstring) (rest : list jsstring) :
  autoCorrectEnabled g = true ->
  harperErrorMap g !! ident el = Some errors ->
  caret el <= length (content el) ->
  let caretPos := wordEnd (content el) (caret el) in
  let wordStart := findWordStart (content el) caretPos in
  wordStart <> caretPos ->
  matchError errors wordStart caretPos = Some error ->
  err_suggestions error = suggestion :: rest ->
  err_start error <= err_end error ->
  exists g' el' replaced,
    tryAutoCorrect now g el = (true, g', el') /\
    content el
    = take (err_start error) (content el) ++ replaced
      ++ drop (err_end error) (content el) /\
    content el'
    = take (err_start error) (content el) ++ (suggestion ++ [SPACE])
      ++ drop (err_end error) (content el) /\
    lastAutoCorrection g' = Some
      {| corr_element := ident el;
         originalWord := replaced;
         correctedWord := suggestion;
         position_start := err_start error;
         position_end := err_start error + length (suggestion ++ [SPACE]);
         timestamp := now |}.
Proof.
  intros Hon Herrors Hcaret caretPos wordStart Hword Hmatch Hsugg Hspan.
  exists (setLastAutoCorrection g (Some
            {| corr_element := ident el;
               originalWord :=
                 substring (content el) (err_start error) (err_end error);
               correctedWord := suggestion;
               position_start := err_start error;
               position_end := err_start error + length (suggestion ++ [SPACE]);
               timestamp := now |})),
    (applyTextReplacement el (Num (Z.of_nat (err_start error)))
       (Num (Z.of_nat (err_end error))) (suggestion ++ [SPACE])),
    (take (err_end error - err_start error)
       (drop (err_start error) (content el))).
  split; [|split; [|split]].
  - unfold tryAutoCorrect. rewrite Hon, Herrors. cbn [negb].
    fold caretPos. fold wordStart.
    apply Nat.eqb_neq in Hword. rewrite Hword.
    assert (length (trim (substring (content el) wordStart caretPos)) <> 0)
      as Hblank.
    { apply word_not_blank; [|by apply Nat.eqb_neq].
      pose proof (wordEnd_le (content el) (caret el)). unfold caretPos. lia. }
    apply Nat.eqb_neq in Hblank. rewrite Hblank, Hmatch, Hsugg.
    by rewrite substring_span.
  - by apply span_decomposition.
  - apply applyTextReplacement_unsigned.
  - by rewrite substring_span.
Qed.

Lemma tryAutoCorrect_replaces_span_with_first_suggestion_witness :
  let error := {| err_start := 2; err_end := 5;
                  err_suggestions := [lit "have"] |} in
  let g := {| harperErrorMap := {[ 1 := [error] ]};
              autoCorrectEnabled := true; lastAutoCorrection := None |} in
  let el := {| ident := 1; kind := PlainField; content := lit "I has a dog";
               caret := 6; focused := true; harperOverlay := None;
               overlayCreatable := true; outlined := false |} in
  exists g' el',
    tryAutoCorrect 0 g el = (true, g', el') /\
    content el' = lit "I have  a dog" /\
    lastAutoCorrection g' = Some
      {| corr_element := 1; originalWord := lit "has";
         correctedWord := lit "have"; position_start := 2;
         position_end := 7; timestamp := 0 |}.
Proof.
  intros error g el.
  destruct (tryAutoCorrect_replaces_span_with_first_suggestion
              0 g el [error] error (lit "have") [])
    as (g' & el' & replaced & Hrun & Hold & Hnew & Hrecord).
  - reflexivity.
  - vm_compute. reflexivity.
  - vm_compute. lia.
  - vm_compute. lia.
  - vm_compute. reflexivity.
  - reflexivity.
  - vm_compute. lia.
  - exists g', el'. split; [exact Hrun|]. split.
    + rewrite Hnew. reflexivity.
    + rewrite Hrecord. do 2 f_equal.
      change (content el)
        with (lit "I " ++ lit "has" ++ lit " a dog") in Hold at 1.
      change (take (err_start error) (content el)) with (lit "I ") in Hold.
      change (drop (err_end error) (content el)) with (lit " a dog") in Hold.
      apply app_inv_head, app_inv_tail in Hold. by symmetry.
Defined.

(** ** One record at a time *)

(** C9. [window._lastAutoCorrection] is a single slot. When a correction
    is applied while the record of an earlier one is still there, the slot
    holds the new record and nothing of the old one: the state is the one
    the same correction reaches from an empty slot. A revert attempt aimed
    at the first correction, that is, on its element with the caret at its
    boundary, where that is not also the boundary of the new record on the
    same element, changes nothing on the element and answers [false]; the
    slot then holds the new record or is empty, never the first record. *)
Theorem second_correction_overwrites_first
  (now : nat) (g g' : Globals) (el el' : Surface) (first : Correction) :
  lastAutoCorrection g = Some first ->
  tryAutoCorrect now g el = (true, g', el') ->
  exists second,
    lastAutoCorrection g' = Some second /\
    corr_element second = ident el /\
    timestamp second = now /\
    tryAutoCorrect now (setLastAutoCorrection g None) el = (true, g', el') /\
    forall (later : Globals) (target : Surface),
      lastAutoCorrection later = Some second ->
      ident target = corr_element first ->
      caret target = position_start first + length (correctedWord first) ->
      (corr_element second <> corr_element first \/
       position_start second + length (correctedWord second)
       <> position_start first + length (correctedWord first)) ->
      exists later',
        tryRevertCorrection later target = (false, later', target) /\
        (lastAutoCorrection later' = Some second \/
         lastAutoCorrection later' = None).
Proof.
  intros Hfirst Hrun.
  destruct (tryAutoCorrect_applied now g g' el el' Hrun)
    as (errors & error & suggestion & rest
        & Hon & Herrors & Hmatch & Hsugg & -> & ->).
  eexists. split; [reflexivity|]. split; [reflexivity|].
  split; [reflexivity|]. split.
  - clear Hfirst. unfold tryAutoCorrect in *.
    cbn [setLastAutoCorrection autoCorrectEnabled harperErrorMap] in *.
    rewrite Hon, Herrors in *. cbn [negb] in *.
    destruct (_ =? _); [done|]. destruct (_ =? 0); [done|].
    rewrite Hmatch, Hsugg in *. done.
  - intros later target Hslot Htarget Hcaret Hdiffers.
    unfold tryRevertCorrection. rewrite Hslot.
    cbn [corr_element position_start correctedWord] in *.
    destruct (Nat.eqb_spec (ident el) (ident target)) as [Hsame|Hother];
      cbn [negb]; [|by eexists; split; [|left]].
    destruct (Nat.eqb_spec (caret target)
                (err_start error + length suggestion)) as [Hat|Haway];
      cbn [negb].
    + exfalso. destruct Hdiffers as [Hd|Hd]; [congruence|lia].
    + destruct (2 <? _); eexists; (split; [reflexivity|]); auto.
Qed.

Lemma second_correction_overwrites_first_witness :
  let first := {| corr_element := 1; originalWord := lit "has";
                  correctedWord := lit "have"; position_start := 2;
                  position_end := 7; timestamp := 0 |} in
  let g := {| harperErrorMap :=
                {[ 1 := [{| err_start := 8; err_end := 11;
                            err_suggestions := [lit "the"] |}] ]};
              autoCorrectEnabled := true;
              lastAutoCorrection := Some first |} in
  let el := {| ident := 1; kind := PlainField;
               content := lit "I have  teh "; caret := 12; focused := true;
               harperOverlay := None; overlayCreatable := true;
               outlined := false |} in
  let g' := (tryAutoCorrect 1 g el).1.2 in
  let el' := (tryAutoCorrect 1 g el).2 in
  let target := withText el' (content el') 6 in
  exists second later',
    lastAutoCorrection g' = Some second /\
    position_start second = 8 /\
    tryRevertCorrection g' target = (false, later', target).
Proof.
  intros first g el g' el' target.
  assert (tryAutoCorrect 1 g el = (true, g', el')) as Hrun
    by (vm_compute; reflexivity).
  destruct (second_correction_overwrites_first 1 g g' el el' first
              eq_refl Hrun)
    as (second & Hslot & _ & _ & _ & Hrevert).
  assert (second = {| corr_element := 1; originalWord := lit "teh";
                      correctedWord := lit "the"; position_start := 8;
                      position_end := 12; timestamp := 1 |}) as Hsecond.
  { vm_compute in Hslot. injection Hslot as <-. reflexivity. }
  destruct (Hrevert g' target Hslot eq_refl eq_refl) as (later' & Hno & _).
  { right. rewrite Hsecond. vm_compute. lia. }
  exists second, later'. split; [exact Hslot|]. split; [|exact Hno].
  by rewrite Hsecond.
Defined.

(** ** Analysis passes and the error map *)

Lemma resolvePass_stores (harperLinter : option Linter) (p : Pass)
  (g : Globals) (el : Surface) :
  harperErrorMap (resolvePass harperLinter p g el).1 !! pass_element p
  = Some (toErrorRecord <$> lintsOf (analyzeText harperLinter (pass_text p))).
Proof. unfold resolvePass. cbn. apply lookup_insert_eq. Qed.

Lemma resolvePass_other_elements (harperLinter : option Linter) (p : Pass)
  (g : Globals) (el : Surface) (other : nat) :
  other <> pass_element p ->
  harperErrorMap (resolvePass harperLinter p g el).1 !! other
  = harperErrorMap g !! other.
Proof. intros Hne. unfold resolvePass. cbn. by apply lookup_insert_ne. Qed.

Lemma resolvePass_keeps_record (harperLinter : option Linter) (p : Pass)
  (g : Globals) (el : Surface) :
  lastAutoCorrection (resolvePass harperLinter p g el).1
  = lastAutoCorrection g.
Proof. reflexivity. Qed.


(** ** The order in which passes store their records *)







(** A call of [processElement] and its two jobs, with nothing in between,
    make the pass that nothing interleaves with. *)
Lemma processElement_as_jobs (harperLinter : option Linter) (g : Globals)
  (el : Surface) :
  let page :=
    run harperLinter [CallProcessElement; RunJob; RunJob] (watch true g el) in
  (globals page, element page) = processElement harperLinter g el /\
  passesInFlight page = [].
Proof. done. Qed.


(** Two passes in flight at once. The element reads "teh cat" when the
    first pass is started and "the cat" when the second is; both wait for
    the initialization. The first pass stores first, the second after it,
    and the list that stays is the one of the second pass. *)
Example two_passes_in_flight :
  let start := watch false idle (surface PlainField (lit "teh cat") 7) in
  let calls :=
    [CallProcessElement; UserEdits (lit "the cat") 7; CallProcessElement;
     HarperReadySettles] in
  let midway :=
    run (Some tehAnalyzer) (calls ++ [RunJob; RunJob; RunJob]) start in
  let final := run (Some tehAnalyzer) [RunJob] midway in
  (passesInFlight midway
   = [startPass (surface PlainField (lit "the cat") 7)]) /\
  (harperErrorMap (globals midway) !! 1
   = Some [{| err_start := 0; err_end := 3;
              err_suggestions := [lit "the"] |}]) /\
  passesInFlight final = [] /\
  harperErrorMap (globals final) !! 1 = Some [].
Proof. vm_compute. repeat split. Qed.

(** ** The correction and revert round trip *)

(** C4, as the code has it, in an input or a textarea. The text of the
    focused field is "I has a dog", the caret is after "has " (offset 6),
    auto-correct is on and the analyzer suggests "have" for [[2,5)]. On
    the space the span [[2,5)] is replaced by "have "; the typed space
    stays behind it, so the text is "I have  a dog", with the caret at 7
    and the record ("has", "have", [[2,7)]). The backspace that follows
    removes the unit before the caret and leaves the caret at
    6 = 2 + length("have"), where the revert fires: [[2,7)] is replaced by
    "has", the text is "I hasa dog" with the caret at 5, and the record is
    cleared. A second backspace finds no record and reverts nothing: it
    is an ordinary deletion. *)
Theorem correction_then_backspace_round_trip :
  let start := surface PlainField (lit "I has a dog") 6 in
  let corrected :=
    onInput (Some dogAnalyzer) 0 (InsertText [SPACE]) idle start in
  exists reverted again,
    keyBackspace (Some dogAnalyzer) 0 corrected.1.1 corrected.1.2
    = Some reverted /\
    keyBackspace (Some dogAnalyzer) 0 reverted.1.1 reverted.1.2
    = Some again /\
    (content corrected.1.2 = lit "I have  a dog" /\
     caret corrected.1.2 = 7 /\
     lastAutoCorrection corrected.1.1 = Some
       {| corr_element := 1; originalWord := lit "has";
          correctedWord := lit "have"; position_start := 2;
          position_end := 7; timestamp := 0 |}) /\
    (content reverted.1.2 = lit "I hasa dog" /\
     caret reverted.1.2 = 5 /\
     lastAutoCorrection reverted.1.1 = None /\
     reverted.2 = ReprocessSoon) /\
    (Some again.1.2 = pressBackspace reverted.1.2 /\
     content again.1.2 = lit "I haa dog" /\
     lastAutoCorrection again.1.1 = None /\
     again.2 = ReprocessDebounced).
Proof.
  intros start corrected.
  destruct (keyBackspace (Some dogAnalyzer) 0 corrected.1.1 corrected.1.2)
    as [reverted|] eqn:Hreverted; [|by vm_compute in Hreverted].
  destruct (keyBackspace (Some dogAnalyzer) 0 reverted.1.1 reverted.1.2)
    as [again|] eqn:Hagain;
    [|by vm_compute in Hreverted; injection Hreverted as <-;
         vm_compute in Hagain].
  exists reverted, again. split; [done|]. split; [done|].
  vm_compute in Hreverted. injection Hreverted as <-.
  vm_compute in Hagain. injection Hagain as <-.
  vm_compute. repeat split.
Qed.

(** C4, as stated, fails: after the correction the text is not
    "I have a dog" and the caret is not at 8; the backspace that reverts
    leaves "I hasa dog", not "I has a dog"; and a backspace with the caret
    at 8 reverts nothing. *)
Lemma round_trip_as_claimed_fails :
  let start := surface PlainField (lit "I has a dog") 6 in
  let corrected :=
    onInput (Some dogAnalyzer) 0 (InsertText [SPACE]) idle start in
  exists reverted at8,
    keyBackspace (Some dogAnalyzer) 0 corrected.1.1 corrected.1.2
    = Some reverted /\
    keyBackspace (Some dogAnalyzer) 0 corrected.1.1
      (withText corrected.1.2 (content corrected.1.2) 8)
    = Some at8 /\
    content corrected.1.2 <> lit "I have a dog" /\
    caret corrected.1.2 <> 8 /\
    content reverted.1.2 <> lit "I has a dog" /\
    content at8.1.2 = lit "I have a dog" /\
    content at8.1.2 <> lit "I has a dog".
Proof.
  intros start corrected.
  destruct (keyBackspace (Some dogAnalyzer) 0 corrected.1.1 corrected.1.2)
    as [reverted|] eqn:Hreverted; [|by vm_compute in Hreverted].
  destruct (keyBackspace (Some dogAnalyzer) 0 corrected.1.1
              (withText corrected.1.2 (content corrected.1.2) 8))
    as [at8|] eqn:Hat8; [|by vm_compute in Hat8].
  exists reverted, at8. split; [done|]. split; [done|].
  vm_compute in Hreverted. injection Hreverted as <-.
  vm_compute in Hat8. injection Hat8 as <-.
  vm_compute. repeat split; discriminate.
Qed.

(** ** The matching policy against the specification *)

Lemma spansOverlap_common_offset (start1 stop1 start2 stop2 : nat) :
  spansOverlap start1 stop1 start2 stop2 = true <->
  exists i, start1 <= i < stop1 /\ start2 <= i < stop2.
Proof.
  unfold spansOverlap. rewrite Nat.ltb_lt. split.
  - intros Hlt. exists (start1 `max` start2). lia.
  - intros [i Hi]. lia.
Qed.

(** An error that shares an offset with the word is found by the third
    matcher of the code. *)
Lemma spec_overlaps_hasOverlap (wordStart caretPos : nat)
  (err : ErrorRecord) :
  spec_overlaps wordStart caretPos err = true ->
  hasOverlap wordStart caretPos err = true.
Proof.
  unfold spec_overlaps, spansOverlap, hasOverlap.
  rewrite Nat.ltb_lt, andb_true_iff, Nat.leb_le, Nat.ltb_lt. lia.
Qed.

(** The third matcher accepts more: it agrees with the overlap of the
    specification on a record that is not empty and does not start at the
    end of the word. *)
Lemma hasOverlap_spec_overlaps (wordStart caretPos : nat)
  (err : ErrorRecord) :
  wordStart < caretPos ->
  err_start err < err_end err ->
  err_start err <> caretPos ->
  hasOverlap wordStart caretPos err = spec_overlaps wordStart caretPos err.
Proof.
  intros Hword Hspan Hstart.
  unfold spec_overlaps, spansOverlap, hasOverlap.
  destruct (Nat.leb_spec (err_start err) caretPos);
    destruct (Nat.ltb_spec wordStart (err_end err));
    destruct (Nat.ltb_spec (err_start err `max` wordStart)
                (err_end err `min` caretPos)); simpl; lia.
Qed.

Lemma find_agree {A} (f h : A -> bool) (l : list A) :
  Forall (fun x => f x = h x) l -> List.find f l = List.find h l.
Proof.
  induction 1 as [|x l Hx _ IH]; simpl; [done|]. by rewrite Hx, IH.
Qed.

(** On records that are not empty and do not start where the word ends,
    the matching of the code is the matching of the specification. *)
Lemma matchError_spec_matchError (errors : list ErrorRecord)
  (wordStart caretPos : nat) :
  wordStart < caretPos ->
  Forall (fun err => err_start err < err_end err
                     /\ err_start err <> caretPos) errors ->
  matchError errors wordStart caretPos
  = spec_matchError errors wordStart caretPos.
Proof.
  intros Hword Hrecords. unfold matchError, spec_matchError.
  change (exactMatch wordStart caretPos) with (spec_exact wordStart caretPos).
  change (containsWord wordStart caretPos)
    with (spec_contains wordStart caretPos).
  rewrite (find_agree (hasOverlap wordStart caretPos)
             (spec_overlaps wordStart caretPos)); [done|].
  eapply Forall_impl; [exact Hrecords|].
  intros err [Hspan Hstart]. by apply hasOverlap_spec_overlaps.
Qed.

(** C6 on the code. The text is "Hi ,there" with the caret after the
    space; the word is "Hi", with boundaries [[0,2)], and the only record
    is [[2,4)], which starts where the word ends and shares no offset
    with it. None of the three matchers of the specification yields it,
    so no correction should occur; the third matcher of the code, whose
    test is [err.start <= caretPos && err.end > wordStart], accepts it,
    and the text is changed. *)
Theorem adjacent_error_is_matched_and_corrected :
  let errors := [{| err_start := 2; err_end := 4;
                    err_suggestions := [lit ","] |}] in
  let g := {| harperErrorMap := {[ 1 := errors ]};
              autoCorrectEnabled := true; lastAutoCorrection := None |} in
  let el := surface PlainField (lit "Hi ,there") 3 in
  let caretPos := wordEnd (content el) (caret el) in
  let wordStart := findWordStart (content el) caretPos in
  (wordStart, caretPos) = (0, 2) /\
  spec_matchError errors wordStart caretPos = None /\
  matchError errors wordStart caretPos
  = Some {| err_start := 2; err_end := 4; err_suggestions := [lit ","] |} /\
  (tryAutoCorrect 0 g el).1.1 = true /\
  content (tryAutoCorrect 0 g el).2 = lit "Hi, there".
Proof. vm_compute. repeat split. Qed.

(** ** Rendering: the suggestions attribute is always built *)

Lemma list_pair_ind {A} (P : list A -> Prop) :
  P [] -> (forall x, P [x]) ->
  (forall x y l, P l -> P (y :: l) -> P (x :: y :: l)) ->
  forall l, P l.
Proof.
  intros Hnil Hone Hstep l.
  assert (P l /\ forall x, P (x :: l)) as [Hl _]; [|exact Hl].
  induction l as [|y l [IHl IHcons]]; [by split|].
  split; [apply IHcons|]. intros x. by apply Hstep.
Qed.

Lemma surrogates_disjoint (c : N) :
  isLeadSurrogate c = true -> isTrailSurrogate c = false.
Proof.
  unfold isLeadSurrogate, isTrailSurrogate.
  intros [_ Hle%N.leb_le]%andb_true_iff.
  apply andb_false_iff. left. apply N.leb_gt. lia.
Qed.

Lemma unreserved_ascii (c : N) : isUnreserved c = true -> (c < 128)%N.
Proof.
  intros Hc. destruct (N.ltb_spec c 128) as [Hlt|Hge]; [done|].
  exfalso. unfold isUnreserved in Hc.
  rewrite (proj2 (N.leb_gt c 57)), (proj2 (N.leb_gt c 90)),
    (proj2 (N.leb_gt c 122)) in Hc by lia.
  rewrite !(proj2 (N.eqb_neq c _)) in Hc by lia.
  by rewrite !andb_false_r in Hc.
Qed.

Lemma unreserved_not_surrogate (c : N) :
  isUnreserved c = true ->
  isLeadSurrogate c = false /\ isTrailSurrogate c = false.
Proof.
  intros Hc%unreserved_ascii. unfold isLeadSurrogate, isTrailSurrogate.
  rewrite (proj2 (N.leb_gt 55296 c)), (proj2 (N.leb_gt 56320 c)) by lia.
  done.
Qed.

Lemma wellFormedUnicode_app (a b : jsstring) :
  wellFormedUnicode a = true -> wellFormedUnicode b = true ->
  wellFormedUnicode (a ++ b) = true.
Proof.
  intros Ha Hb. revert Ha.
  induction a as [| x | x y a IHa IHya] using list_pair_ind; simpl.
  - done.
  - destruct (isLeadSurrogate x); [done|].
    destruct (isTrailSurrogate x); [done|]. simpl. by intros _.
  - destruct (isLeadSurrogate x).
    + intros [Hy Hrest]%andb_true_iff. rewrite Hy. simpl. by apply IHa.
    + destruct (isTrailSurrogate x); [done|]. simpl. exact IHya.
Qed.

Lemma wellFormedUnicode_plain (s : jsstring) :
  Forall (fun c => (c < 55296)%N) s -> wellFormedUnicode s = true.
Proof.
  induction 1 as [|c s Hc _ IH]; simpl; [done|].
  unfold isLeadSurrogate, isTrailSurrogate.
  destruct (N.leb_spec 55296 c); [lia|]. simpl.
  destruct (N.leb_spec 56320 c); [lia|]. simpl. exact IH.
Qed.

Lemma hexLower_plain (d : N) : (hexLower (d mod 16) < 55296)%N.
Proof.
  pose proof (N.mod_lt d 16 ltac:(done)) as Hd. unfold hexLower.
  destruct (d mod 16 <? 10)%N; lia.
Qed.

Lemma unicodeEscape_wellFormed (c : N) :
  wellFormedUnicode (unicodeEscape c) = true.
Proof.
  apply wellFormedUnicode_plain. unfold unicodeEscape.
  repeat (constructor; [first [apply hexLower_plain | done]|]).
  constructor.
Qed.

Lemma quoteUnit_wellFormed (c : N) :
  isLeadSurrogate c = false -> isTrailSurrogate c = false ->
  wellFormedUnicode (quoteUnit c) = true.
Proof.
  intros Hlead Htrail. unfold quoteUnit.
  repeat (destruct (_ =? _)%N; [done|]).
  destruct (c <? 32)%N; [apply unicodeEscape_wellFormed|].
  simpl. by rewrite Hlead, Htrail.
Qed.

Lemma quoteUnits_wellFormed (s : jsstring) :
  wellFormedUnicode (quoteUnits s) = true.
Proof.
  induction s as [| x | x y s IHs IHys] using list_pair_ind.
  - done.
  - cbn [quoteUnits]. destruct (isLeadSurrogate x) eqn:Hlead.
    + apply unicodeEscape_wellFormed.
    + destruct (isTrailSurrogate x) eqn:Htrail; rewrite app_nil_r.
      * apply unicodeEscape_wellFormed.
      * by apply quoteUnit_wellFormed.
  - change (quoteUnits (x :: y :: s))
      with (if isLeadSurrogate x then
              if isTrailSurrogate y then x :: y :: quoteUnits s
              else unicodeEscape x ++ quoteUnits (y :: s)
            else if isTrailSurrogate x
                 then unicodeEscape x ++ quoteUnits (y :: s)
                 else quoteUnit x ++ quoteUnits (y :: s)).
    destruct (isLeadSurrogate x) eqn:Hlead.
    + destruct (isTrailSurrogate y) eqn:Hy.
      * cbn [wellFormedUnicode]. by rewrite Hlead, Hy.
      * apply wellFormedUnicode_app;
          [apply unicodeEscape_wellFormed | exact IHys].
    + destruct (isTrailSurrogate x) eqn:Htrail.
      * apply wellFormedUnicode_app;
          [apply unicodeEscape_wellFormed | exact IHys].
      * apply wellFormedUnicode_app;
          [by apply quoteUnit_wellFormed | exact IHys].
Qed.

Lemma JSON_stringify_wellFormed (xs : list jsstring) :
  wellFormedUnicode (JSON_stringify xs) = true.
Proof.
  unfold JSON_stringify.
  apply wellFormedUnicode_app; [done|].
  apply wellFormedUnicode_app; [|done].
  induction xs as [|x xs IH]; [done|].
  assert (wellFormedUnicode (quoteJSONString x) = true) as Hx.
  { unfold quoteJSONString. apply wellFormedUnicode_app; [done|].
    apply wellFormedUnicode_app; [apply quoteUnits_wellFormed|done]. }
  cbn [fmap list_fmap joinWith]. destruct (quoteJSONString <$> xs) eqn:Hrest.
  - exact Hx.
  - apply wellFormedUnicode_app; [exact Hx|].
    by apply wellFormedUnicode_app.
Qed.

Lemma encodeURIComponent_wellFormed (s : jsstring) :
  wellFormedUnicode s = true -> is_Some (encodeURIComponent s).
Proof.
  induction s as [| x | x y s IHs IHys] using list_pair_ind.
  - by eexists.
  - simpl. destruct (isUnreserved x); [by eexists|].
    destruct (isLeadSurrogate x) eqn:Hlead; [done|].
    destruct (isTrailSurrogate x); [done|]. by eexists.
  - cbn [wellFormedUnicode encodeURIComponent].
    destruct (isUnreserved x) eqn:Hplain.
    + destruct (unreserved_not_surrogate x Hplain) as [-> ->]. simpl.
      intros Hrest. destruct (IHys Hrest) as [out Hout].
      cbn [encodeURIComponent] in Hout. rewrite Hout. by eexists.
    + destruct (isLeadSurrogate x) eqn:Hlead.
      * rewrite (surrogates_disjoint x Hlead).
        intros [Hy Hrest]%andb_true_iff. rewrite Hy.
        destruct (IHs Hrest) as [out Hout]. rewrite Hout. by eexists.
      * destruct (isTrailSurrogate x); [done|]. simpl.
        intros Hrest. destruct (IHys Hrest) as [out Hout].
        cbn [encodeURIComponent] in Hout. rewrite Hout. by eexists.
Qed.

(** Building the attribute never throws. *)
Lemma suggestionsJson_built (xs : list jsstring) :
  is_Some (encodeURIComponent (JSON_stringify xs)).
Proof. apply encodeURIComponent_wellFormed, JSON_stringify_wellFormed. Qed.

(** ** Rendering: order and bounds of the splices *)

Lemma insertByStart_perm (x : Lint) (l : list Lint) :
  insertByStart x l ≡ₚ x :: l.
Proof.
  induction l as [|y l IH]; simpl; [done|].
  destruct (span_start y <=? span_start x); [done|].
  rewrite IH. apply Permutation_swap.
Qed.

Lemma sortByStartDescending_perm (errors : list Lint) :
  sortByStartDescending errors ≡ₚ errors.
Proof.
  induction errors as [|x l IH]; simpl; [done|].
  rewrite insertByStart_perm. by rewrite IH.
Qed.

Lemma insertByStart_sorted (x : Lint) (l : list Lint) :
  StronglySorted descending l ->
  StronglySorted descending (insertByStart x l).
Proof.
  induction 1 as [|y l Hl IH Hy]; simpl.
  - repeat constructor.
  - destruct (Nat.leb_spec (span_start y) (span_start x)) as [Hle|Hgt].
    + constructor; [by constructor|]. constructor; [exact Hle|].
      eapply Forall_impl; [exact Hy|]. unfold descending. intros z Hz. lia.
    + constructor; [exact IH|].
      rewrite insertByStart_perm. constructor; [|exact Hy].
      unfold descending. lia.
Qed.

(** The spans are processed in descending order of their start. *)
Lemma sortByStartDescending_sorted (errors : list Lint) :
  StronglySorted descending (sortByStartDescending errors).
Proof.
  induction errors as [|x l IH]; simpl; [constructor|].
  by apply insertByStart_sorted.
Qed.

Lemma spliceError_built (text h : jsstring) (error : Lint) :
  exists suggestionsJson,
    encodeURIComponent (JSON_stringify (lint_suggestions error))
    = Some suggestionsJson /\
    spliceError text (Some h) error
    = Some (take (span_start error) h
            ++ spanHtml text error suggestionsJson
            ++ drop (span_end error) h).
Proof.
  destruct (suggestionsJson_built (lint_suggestions error)) as [sj Hsj].
  exists sj. split; [exact Hsj|].
  unfold spliceError. cbn [mbind option_bind]. rewrite Hsj.
  cbn [mbind option_bind]. by rewrite slice_prefix, sliceFrom_suffix.
Qed.

(** Building the markup never throws. *)
Lemma foldl_spliceError_built (text : jsstring) (errors : list Lint)
  (h : jsstring) :
  is_Some (foldl (spliceError text) (Some h) errors).
Proof.
  revert h. induction errors as [|e errors IH]; intros h; [by eexists|].
  destruct (spliceError_built text h e) as (sj & _ & Hstep).
  cbn [foldl]. rewrite Hstep. apply IH.
Qed.

Lemma renderMarkup_built (text : jsstring) (errors : list Lint) :
  is_Some (renderMarkup text errors).
Proof. unfold renderMarkup. apply foldl_spliceError_built. Qed.

Lemma spanHtml_length (text : jsstring) (error : Lint) (sj : jsstring) :
  span_end error <= length text ->
  span_end error - span_start error <= length (spanHtml text error sj).
Proof.
  intros Hend. unfold spanHtml.
  rewrite !length_app, slice_span, length_take, length_drop. lia.
Qed.

Lemma spliceError_grows (text h h' : jsstring) (error : Lint) :
  withinText text error -> length text <= length h ->
  spliceError text (Some h) error = Some h' -> length h <= length h'.
Proof.
  intros [Hspan Hend] Hh Hstep.
  destruct (spliceError_built text h error) as (sj & _ & Hbuilt).
  pose proof (spanHtml_length text error sj Hend) as Htag.
  revert Hbuilt Htag. generalize (spanHtml text error sj).
  intros tag Hbuilt Htag.
  assert (h' = take (span_start error) h ++ tag ++ drop (span_end error) h)
    as -> by congruence.
  rewrite !length_app, length_take, length_drop. lia.
Qed.

Lemma foldl_spliceError_grows (text : jsstring) (errors : list Lint)
  (h h' : jsstring) :
  Forall (withinText text) errors -> length text <= length h ->
  foldl (spliceError text) (Some h) errors = Some h' ->
  length h <= length h'.
Proof.
  intros Hall. revert h. induction Hall as [|e errors He _ IH]; intros h Hh.
  - cbn. by intros [= <-].
  - destruct (spliceError_built text h e) as (sj & _ & Hstep).
    revert Hstep. generalize (spanHtml text e sj). intros tag Hstep.
    cbn [foldl]. rewrite Hstep. intros Hrest.
    pose proof (spliceError_grows text h _ e He Hh Hstep) as Hgrow.
    assert (length text <=
            length (take (span_start e) h ++ tag ++ drop (span_end e) h))
      as Hnext by lia.
    specialize (IH _ Hnext Hrest). lia.
Qed.

(** Every splice cuts a range of the markup built so far that is in
    bounds and not inverted, whether or not the records overlap. *)
Lemma renderMarkup_splices_in_bounds (text : jsstring)
  (errors processed todo : list Lint) (error : Lint) :
  Forall (withinText text) errors ->
  sortByStartDescending errors = processed ++ error :: todo ->
  exists html,
    foldl (spliceError text) (Some text) processed = Some html /\
    span_start error <= span_end error <= length html.
Proof.
  intros Hall Hsplit.
  assert (Forall (withinText text) (processed ++ error :: todo)) as Hsorted.
  { rewrite <- Hsplit. by rewrite sortByStartDescending_perm. }
  apply Forall_app in Hsorted as [Hprocessed Hrest].
  apply Forall_cons in Hrest as [[Hspan Hend] _].
  destruct (foldl_spliceError_built text processed text) as [html Hhtml].
  exists html. split; [exact Hhtml|].
  pose proof (foldl_spliceError_grows text processed text html
                Hprocessed ltac:(lia) Hhtml). lia.
Qed.

(** The check accepts what the code builds from records that do not
    overlap. *)
Example disjoint_spans_render_valid_markup :
  let text := lit "abcdefgh" in
  let lints :=
    [ {| span_start := 0; span_end := 3; lint_kind := lit "Spelling";
         lint_suggestions := [lit "abd"] |};
      {| span_start := 5; span_end := 8; lint_kind := lit "Style";
         lint_suggestions := [] |} ] in
  exists html,
    renderMarkup text lints = Some html /\ validMarkup text html = true.
Proof. eexists. split; [vm_compute; reflexivity|]. vm_compute. reflexivity. Qed.

(** C7 on the code. The spans are taken in descending order of start, and
    for the records [[0,5)] and [[3,8)] over "abcdefgh" nothing throws. The
    markup that comes out is not valid: the splice for [[0,5)] cuts the
    markup at offset 5, inside the opening tag that the splice for
    [[3,8)] has put at offset 3. What is left of that tag, from "pan
    class=" on, is text of the overlay, and its closing tag closes
    nothing. *)
Theorem overlapping_spans_break_the_markup :
  let text := lit "abcdefgh" in
  let first := {| span_start := 0; span_end := 5;
                  lint_kind := lit "Spelling"; lint_suggestions := [] |} in
  let second := {| span_start := 3; span_end := 8;
                   lint_kind := lit "Style"; lint_suggestions := [] |} in
  sortByStartDescending overlappingLints = [second; first] /\
  exists html,
    renderMarkup text overlappingLints = Some html /\
    html = spanHtml text first (lit "%5B%5D")
           ++ drop 5 (lit "abc" ++ spanHtml text second (lit "%5B%5D")) /\
    startsWith (lit "pan class=")
      (drop 5 (lit "abc" ++ spanHtml text second (lit "%5B%5D"))) = true /\
    balancedSpans html = false /\
    startsWith (lit "abcdepan class=") (visibleText html) = true /\
    validMarkup text html = false.
Proof.
  split; [reflexivity|]. eexists. split; [vm_compute; reflexivity|].
  vm_compute. repeat split.
Qed.

(** ** The tooltip resolver: which record is found *)

Lemma find_first {A} (f : A -> bool) (l : list A) (x : A) :
  List.find f l = Some x <->
  exists i, l !! i = Some x /\ f x = true /\
            forall j y, j < i -> l !! j = Some y -> f y = false.
Proof.
  induction l as [|a l IH]; simpl.
  - split; [done|]. by intros (i & Hi & _).
  - destruct (f a) eqn:Ha.
    + split.
      * intros [= <-]. exists 0. split; [done|]. split; [done|]. lia.
      * intros (i & Hi & Hx & Hfirst).
        destruct i as [|i]; simpl in Hi; [by injection Hi as <-|].
        specialize (Hfirst 0 a ltac:(lia) eq_refl). congruence.
    + rewrite IH. split.
      * intros (i & Hi & Hx & Hfirst). exists (S i).
        split; [done|]. split; [done|].
        intros [|j] y Hj Hy; simpl in Hy; [by injection Hy as <-|].
        apply (Hfirst j); [lia|done].
      * intros (i & Hi & Hx & Hfirst). destruct i as [|i]; simpl in Hi.
        { injection Hi as <-. congruence. }
        exists i. split; [done|]. split; [done|].
        intros j y Hj Hy. apply (Hfirst (S j)); [lia|done].
Qed.

Lemma find_none {A} (f : A -> bool) (l : list A) :
  List.find f l = None <-> Forall (fun x => f x = false) l.
Proof.
  induction l as [|a l IH]; simpl; [by split; [constructor|]|].
  destruct (f a) eqn:Ha.
  - split; [done|]. intros [Hf _]%Forall_cons. congruence.
  - rewrite IH. split; [by constructor|]. by intros [_ ?]%Forall_cons.
Qed.

Lemma containsCaret_bounds (caretPos : nat) (err : ErrorRecord) :
  containsCaret caretPos err = true <->
  err_start err <= caretPos <= err_end err.
Proof.
  unfold containsCaret. rewrite andb_true_iff, !Nat.leb_le. lia.
Qed.

(** X1. [handleContextMenu] answers with the first record of the element,
    in the order of the analyzer, whose span contains the caret with both
    ends included; it answers with none exactly when no record of the
    element does, and always for an element that has no entry in the
    map. *)
Theorem handleContextMenu_first_record_at_caret
  (g : Globals) (el : Surface) :
  (harperErrorMap g !! ident el = None -> handleContextMenu g el = None) /\
  (forall errors, harperErrorMap g !! ident el = Some errors ->
     (forall err, handleContextMenu g el = Some err <->
        exists i, errors !! i = Some err /\
          err_start err <= caret el <= err_end err /\
          forall j other, j < i -> errors !! j = Some other ->
            ~ (err_start other <= caret el <= err_end other)) /\
     (handleContextMenu g el = None <->
        forall err, err ∈ errors ->
          ~ (err_start err <= caret el <= err_end err))).
Proof.
  unfold handleContextMenu. split; [by intros ->|].
  intros errors ->. cbn [default]. split.
  - intros err. rewrite find_first. split.
    + intros (i & Hi & Hin & Hfirst). exists i. split; [done|].
      split; [by apply containsCaret_bounds|].
      intros j other Hj Hother Hcontains%containsCaret_bounds.
      specialize (Hfirst j other Hj Hother). congruence.
    + intros (i & Hi & Hin & Hfirst). exists i. split; [done|].
      split; [by apply containsCaret_bounds|].
      intros j other Hj Hother.
      destruct (containsCaret (caret el) other) eqn:Hc; [|done].
      apply containsCaret_bounds in Hc. by destruct (Hfirst j other Hj Hother).
  - rewrite find_none, Forall_forall. split.
    + intros Hnone err Herr Hcontains%containsCaret_bounds.
      specialize (Hnone err Herr). congruence.
    + intros Hnone err Herr.
      destruct (containsCaret (caret el) err) eqn:Hc; [|done].
      apply containsCaret_bounds in Hc. by destruct (Hnone err Herr).
Qed.

Lemma handleContextMenu_first_record_at_caret_witness :
  let record := {| err_start := 4; err_end := 7;
                   err_suggestions := [lit "fix"] |} in
  let g := {| harperErrorMap := {[ 1 := [record] ]};
              autoCorrectEnabled := false; lastAutoCorrection := None |} in
  handleContextMenu g (surface PlainField (lit "the teh cat") 7)
  = Some record /\
  handleContextMenu g (surface PlainField (lit "the teh cat") 8) = None.
Proof.
  intros record g.
  destruct (handleContextMenu_first_record_at_caret g
              (surface PlainField (lit "the teh cat") 7)) as [_ Hat7].
  destruct (handleContextMenu_first_record_at_caret g
              (surface PlainField (lit "the teh cat") 8)) as [_ Hat8].
  destruct (Hat7 [record] eq_refl) as [Hfound _].
  destruct (Hat8 [record] eq_refl) as [_ Hnone].
  split.
  - apply Hfound. exists 0. split; [done|]. split; [cbn; lia|].
    intros j other Hj. lia.
  - apply Hnone. intros err ->%list_elem_of_singleton. cbn. lia.
Defined.

(** ** Suggestions chosen from the tooltip *)

Lemma renderErrors_text (el : Surface) (text : jsstring)
  (errors : list Lint) :
  ident (renderErrors el text errors) = ident el /\
  kind (renderErrors el text errors) = kind el /\
  content (renderErrors el text errors) = content el /\
  caret (renderErrors el text errors) = caret el /\
  focused (renderErrors el text errors) = focused el /\
  overlayCreatable (renderErrors el text errors) = overlayCreatable el.
Proof.
  unfold renderErrors, ensureOverlay.
  destruct (harperOverlay el) as [old|] eqn:Hold.
  - rewrite Hold. by destruct (renderMarkup text errors).
  - destruct (overlayCreatable el) eqn:Hcan; cbn [harperOverlay withOverlay].
    + by destruct (renderMarkup text errors).
    + by rewrite Hold.
Qed.

Lemma take_span (s : jsstring) (a b : nat) :
  a <= b -> take a s ++ take (b - a) (drop a s) = take b s.
Proof.
  intros Hab. rewrite take_take_drop. f_equal. lia.
Qed.

(** X2. A click on a suggestion button, on the text the tooltip was
    opened on, replaces the span of the record with the suggestion; a
    suggestion made of punctuation marks only is appended to the word
    instead, so that the text up to the end of the span stays and the
    marks are inserted there. The pass that follows does not touch the
    text. *)
Theorem clickSuggestion_inserts_punctuation_after_word
  (harperLinter : option Linter) (g : Globals) (el : Surface)
  (error : ErrorRecord) (suggestion : jsstring) :
  err_start error <= err_end error ->
  let originalWord :=
    slice (content el) (Num (Z.of_nat (err_start error)))
      (Num (Z.of_nat (err_end error))) in
  let after :=
    (clickSuggestion harperLinter g el error
       (replacementFor originalWord suggestion)).2 in
  (isPunctuation suggestion = true ->
     content after
     = take (err_end error) (content el) ++ suggestion
       ++ drop (err_end error) (content el)) /\
  (isPunctuation suggestion = false ->
     content after
     = take (err_start error) (content el) ++ suggestion
       ++ drop (err_end error) (content el)).
Proof.
  intros Hspan originalWord after. subst after. unfold clickSuggestion.
  unfold processElement, resolvePass. cbn [snd].
  destruct (renderErrors_text
              (applyTextReplacement el (Num (Z.of_nat (err_start error)))
                 (Num (Z.of_nat (err_end error)))
                 (replacementFor originalWord suggestion))
              (pass_text (startPass
                 (applyTextReplacement el (Num (Z.of_nat (err_start error)))
                    (Num (Z.of_nat (err_end error)))
                    (replacementFor originalWord suggestion))))
              (lintsOf (analyzeText harperLinter
                 (pass_text (startPass
                    (applyTextReplacement el
                       (Num (Z.of_nat (err_start error)))
                       (Num (Z.of_nat (err_end error)))
                       (replacementFor originalWord suggestion)))))))
    as (_ & _ & -> & _).
  rewrite applyTextReplacement_unsigned. unfold replacementFor.
  split; intros ->; [|done].
  subst originalWord. rewrite slice_span, <- app_assoc, app_assoc.
  by rewrite take_span.
Qed.

Lemma clickSuggestion_inserts_punctuation_after_word_witness :
  let error := {| err_start := 0; err_end := 5;
                  err_suggestions := [lit ","] |} in
  let el := surface PlainField (lit "Hello world") 5 in
  content (clickSuggestion None idle el error
             (replacementFor (lit "Hello") (lit ","))).2
  = lit "Hello, world".
Proof.
  intros error el.
  destruct (clickSuggestion_inserts_punctuation_after_word
              None idle el error (lit ",")) as [Hmarks _].
  - cbn. lia.
  - change (slice (content el) (Num (Z.of_nat (err_start error)))
              (Num (Z.of_nat (err_end error)))) with (lit "Hello") in Hmarks.
    rewrite (Hmarks eq_refl). reflexivity.
Defined.

(** ** A correction that is not applied *)

(** X3. A call of [tryAutoCorrect] that answers [false] has changed
    nothing: not the text, not the caret, not the record of the last
    correction. Whatever it answers, it leaves the error map and the
    auto-correct switch as they were and stays on the same element. *)
Theorem tryAutoCorrect_declined_changes_nothing
  (now : nat) (g : Globals) (el : Surface) :
  let result := tryAutoCorrect now g el in
  (result.1.1 = false -> result.1.2 = g /\ result.2 = el) /\
  harperErrorMap result.1.2 = harperErrorMap g /\
  autoCorrectEnabled result.1.2 = autoCorrectEnabled g /\
  ident result.2 = ident el.
Proof.
  cbn zeta. unfold tryAutoCorrect.
  destruct (autoCorrectEnabled g) eqn:Hon; cbn [negb];
    [destruct (harperErrorMap g !! ident el) as [errors|];
     [destruct (_ =? _);
      [|destruct (_ =? 0);
        [|destruct (matchError _ _ _) as [error|];
          [destruct (err_suggestions error) as [|suggestion rest]|]]]|]|];
    cbn [fst snd setLastAutoCorrection autoCorrectEnabled harperErrorMap];
    repeat split; first [done | apply applyTextReplacement_ident].
Qed.

Lemma tryAutoCorrect_declined_changes_nothing_witness :
  let g := {| harperErrorMap :=
                {[ 1 := [{| err_start := 2; err_end := 5;
                            err_suggestions := [] |}] ]};
              autoCorrectEnabled := true; lastAutoCorrection := None |} in
  let el := surface PlainField (lit "I has a dog") 6 in
  tryAutoCorrect 0 g el = (false, g, el).
Proof.
  intros g el.
  destruct (tryAutoCorrect_declined_changes_nothing 0 g el)
    as [Hdeclined _].
  destruct (tryAutoCorrect 0 g el) as [[answer g'] el'] eqn:Hrun.
  assert (answer = false) as ->.
  { vm_compute in Hrun. by injection Hrun as <- _ _. }
  destruct (Hdeclined eq_refl) as [Hg Hel]. cbn in Hg, Hel. by subst.
Defined.

(** ** Which record the three matchers yield *)

Lemma exactMatch_containsWord (wordStart caretPos : nat)
  (err : ErrorRecord) :
  exactMatch wordStart caretPos err = true ->
  containsWord wordStart caretPos err = true.
Proof.
  unfold exactMatch, containsWord.
  rewrite !andb_true_iff, !Nat.eqb_eq, !Nat.leb_le. lia.
Qed.

Lemma containsWord_hasOverlap (wordStart caretPos : nat)
  (err : ErrorRecord) :
  wordStart < caretPos ->
  containsWord wordStart caretPos err = true ->
  hasOverlap wordStart caretPos err = true.
Proof.
  unfold containsWord, hasOverlap.
  rewrite !andb_true_iff, !Nat.leb_le, Nat.ltb_lt. lia.
Qed.

Lemma find_some_elem {A} (f : A -> bool) (l : list A) (x : A) :
  List.find f l = Some x -> x ∈ l /\ f x = true.
Proof.
  intros (i & Hi & Hx & _)%find_first. split; [|done].
  by apply list_elem_of_lookup_2 in Hi.
Qed.

Lemma find_some_if {A} (f : A -> bool) (l : list A) (x : A) :
  x ∈ l -> f x = true -> exists y, List.find f l = Some y.
Proof.
  intros Hin Hx. destruct (List.find f l) as [y|] eqn:Hfind; [by exists y|].
  apply find_none in Hfind. rewrite Forall_forall in Hfind.
  specialize (Hfind x Hin). congruence.
Qed.

(** X4. For a word that is not empty, the record [tryAutoCorrect] picks
    is one of the records of the element and passes the third test,
    [err.start <= caretPos && err.end > wordStart]; no record is picked
    exactly when none passes that test. A record that equals the word
    boundaries wins over every other record, wherever it stands in the
    list, and without one a record that contains the boundaries wins. *)
Theorem matchError_picks_by_tier
  (errors : list ErrorRecord) (wordStart caretPos : nat) :
  wordStart < caretPos ->
  (forall err, matchError errors wordStart caretPos = Some err ->
     err ∈ errors /\ hasOverlap wordStart caretPos err = true) /\
  (matchError errors wordStart caretPos = None <->
     Forall (fun err => hasOverlap wordStart caretPos err = false) errors) /\
  (forall candidate, candidate ∈ errors ->
     exactMatch wordStart caretPos candidate = true ->
     exists err, matchError errors wordStart caretPos = Some err /\
                 exactMatch wordStart caretPos err = true) /\
  (forall candidate, candidate ∈ errors ->
     containsWord wordStart caretPos candidate = true ->
     exists err, matchError errors wordStart caretPos = Some err /\
                 containsWord wordStart caretPos err = true).
Proof.
  intros Hword. unfold matchError. split; [|split; [|split]].
  - intros err.
    destruct (List.find (exactMatch _ _) errors) as [e1|] eqn:H1.
    { intros [= <-]. apply find_some_elem in H1 as [Hin Hexact].
      split; [done|].
      by apply containsWord_hasOverlap, exactMatch_containsWord. }
    destruct (List.find (containsWord _ _) errors) as [e2|] eqn:H2.
    { intros [= <-]. apply find_some_elem in H2 as [Hin Hcontains].
      split; [done|]. by apply containsWord_hasOverlap. }
    intros Hfind. by apply find_some_elem in Hfind.
  - destruct (List.find (exactMatch _ _) errors) as [e1|] eqn:H1.
    { split; [done|]. intros Hnone. rewrite Forall_forall in Hnone.
      apply find_some_elem in H1 as [Hin Hexact].
      apply exactMatch_containsWord, containsWord_hasOverlap in Hexact;
        [|done].
      specialize (Hnone e1 Hin). congruence. }
    destruct (List.find (containsWord _ _) errors) as [e2|] eqn:H2.
    { split; [done|]. intros Hnone. rewrite Forall_forall in Hnone.
      apply find_some_elem in H2 as [Hin Hcontains].
      apply containsWord_hasOverlap in Hcontains; [|done].
      specialize (Hnone e2 Hin). congruence. }
    apply find_none.
  - intros candidate Hin Hexact.
    destruct (find_some_if _ _ _ Hin Hexact) as [err Hfind].
    rewrite Hfind. exists err. split; [done|].
    by apply find_some_elem in Hfind as [_ ?].
  - intros candidate Hin Hcontains.
    destruct (List.find (exactMatch _ _) errors) as [e1|] eqn:H1.
    { exists e1. split; [done|]. apply find_some_elem in H1 as [_ Hexact].
      by apply exactMatch_containsWord. }
    destruct (find_some_if _ _ _ Hin Hcontains) as [err Hfind].
    rewrite Hfind. exists err. split; [done|].
    by apply find_some_elem in Hfind as [_ ?].
Qed.

Lemma matchError_picks_by_tier_witness :
  let wide := {| err_start := 0; err_end := 9; err_suggestions := [] |} in
  let exact := {| err_start := 2; err_end := 5;
                  err_suggestions := [lit "have"] |} in
  matchError [wide; exact] 2 5 = Some exact.
Proof.
  intros wide exact.
  destruct (matchError_picks_by_tier [wide; exact] 2 5 ltac:(lia))
    as (_ & _ & Hexact & _).
  destruct (Hexact exact) as (err & Hfound & Hexact').
  - apply list_elem_of_In. right. by left.
  - reflexivity.
  - rewrite Hfound. f_equal. vm_compute in Hfound. by injection Hfound as <-.
Defined.

(** ** When the analyzer is invoked *)

Lemma not_blank_exists (text : jsstring) :
  length (trim text) <> 0 <->
  Exists (fun c => isWhiteSpace c = false) text.
Proof.
  assert (Forall (fun c => isWhiteSpace c = true) text <->
          ~ Exists (fun c => isWhiteSpace c = false) text) as Hdual.
  { induction text as [|c text IH].
    - split; [by intros _ ?%Exists_nil|constructor].
    - rewrite Forall_cons, Exists_cons, IH.
      destruct (isWhiteSpace c); intuition congruence. }
  split.
  - intros Hword.
    destruct (Exists_dec (fun c => isWhiteSpace c = false) text) as [?|Hno];
      [done|].
    exfalso. apply Hword, trim_empty_iff, Hdual, Hno.
  - intros Hunit Hblank%trim_empty_iff%Hdual. done.
Qed.

(** X7. [analyzeText] hands a text to the analyzer at most once, unchanged,
    and does so exactly when the linter is loaded and the text holds a
    unit that is not white space. When it does, and the analyzer returns,
    the result is what the analyzer returned. *)
Theorem analyzeText_invokes_analyzer_once
  (harperLinter : option Linter) (text : jsstring) :
  let run := analyzeText harperLinter text in
  (lintCalls run = [] \/ lintCalls run = [text]) /\
  (lintCalls run = [text] <->
     is_Some harperLinter /\
     Exists (fun c => isWhiteSpace c = false) text) /\
  (forall lint lints, harperLinter = Some lint -> lint text = Some lints ->
     Exists (fun c => isWhiteSpace c = false) text ->
     resolved run = Some lints).
Proof.
  cbn zeta. unfold analyzeText.
  destruct harperLinter as [lint|]; cbn [lintCalls resolved].
  - destruct (Nat.eqb_spec (length (trim text)) 0) as [Hblank|Hword];
      cbn [lintCalls resolved].
    + split; [by left|]. split.
      * split; [done|]. intros [_ Hunit%not_blank_exists]. lia.
      * intros lint' lints _ _ Hunit%not_blank_exists. lia.
    + apply not_blank_exists in Hword.
      destruct (lint text) as [found|] eqn:Hrun; cbn [lintCalls resolved].
      * split; [by right|].
        split; [split; [intros _; split; [by eexists|done]|done]|].
        intros lint' lints [= <-] Hlints _. congruence.
      * split; [by right|].
        split; [split; [intros _; split; [by eexists|done]|done]|].
        intros lint' lints [= <-] Hlints _. congruence.
  - split; [by left|]. split.
    + split; [done|]. by intros [[lint Hl] _].
    + by intros lint lints Hl.
Qed.

Lemma analyzeText_invokes_analyzer_once_witness :
  lintCalls (analyzeText (Some dogAnalyzer) (lit "I has a dog"))
  = [lit "I has a dog"] /\
  resolved (analyzeText (Some dogAnalyzer) (lit "I has a dog"))
  = dogAnalyzer (lit "I has a dog").
Proof.
  destruct (analyzeText_invokes_analyzer_once (Some dogAnalyzer)
              (lit "I has a dog")) as (_ & Hcalls & Hresult).
  assert (Exists (fun c => isWhiteSpace c = false) (lit "I has a dog"))
    as Hunit by (by apply Exists_cons_hd).
  split.
  - apply Hcalls. split; [by eexists|exact Hunit].
  - by apply (Hresult dogAnalyzer _ eq_refl eq_refl).
Defined.

(** ** What a pass touches *)

Lemma renderErrors_overlay (el : Surface) (text : jsstring)
  (errors : list Lint) :
  (harperOverlay el = None /\ overlayCreatable el = false ->
     harperOverlay (renderErrors el text errors) = None /\
     outlined (renderErrors el text errors) = (0 <? length errors)) /\
  (is_Some (harperOverlay el) \/ overlayCreatable el = true ->
     harperOverlay (renderErrors el text errors)
     = renderMarkup text errors /\
     outlined (renderErrors el text errors) = outlined el).
Proof.
  unfold renderErrors, ensureOverlay.
  destruct (renderMarkup_built text errors) as [html Hhtml].
  destruct (harperOverlay el) as [old|] eqn:Hold.
  - rewrite Hold, Hhtml. split; [by intros [? _]|]. by intros _.
  - destruct (overlayCreatable el) eqn:Hcan.
    + cbn [harperOverlay withOverlay]. rewrite Hhtml.
      split; [by intros [_ ?]|]. by intros _.
    + rewrite Hold. split; [by intros _|]. intros [[? ?]|?]; done.
Qed.

(** X8. A pass of [processElement] touches the overlay of its element and
    the entry of its element in the error map, and nothing else: the text,
    the caret and the focus of the element, the record of the last
    correction, the auto-correct switch and the records of every other
    element are as before. *)
Theorem processElement_touches_overlay_and_own_records
  (harperLinter : option Linter) (g : Globals) (el : Surface) :
  let after := processElement harperLinter g el in
  content after.2 = content el /\
  caret after.2 = caret el /\
  focused after.2 = focused el /\
  ident after.2 = ident el /\
  lastAutoCorrection after.1 = lastAutoCorrection g /\
  autoCorrectEnabled after.1 = autoCorrectEnabled g /\
  (forall other, other <> ident el ->
     harperErrorMap after.1 !! other = harperErrorMap g !! other).
Proof.
  cbn zeta. unfold processElement, resolvePass. cbn [fst snd].
  destruct (renderErrors_text el (pass_text (startPass el))
              (lintsOf (analyzeText harperLinter (pass_text (startPass el)))))
    as (Hident & _ & Htext & Hcaret & Hfocus & _).
  repeat split; try done.
  intros other Hother. cbn. by apply lookup_insert_ne.
Qed.

(** X9. With no edit in between, a second pass of [processElement]
    changes nothing: the records, the overlay and the outline are those
    the first pass left. *)
Theorem processElement_twice
  (harperLinter : option Linter) (g : Globals) (el : Surface) :
  let once := processElement harperLinter g el in
  processElement harperLinter once.1 once.2 = once.
Proof.
  cbn zeta. unfold processElement, resolvePass, startPass.
  cbn [fst snd pass_text pass_element].
  destruct (renderErrors_text el (content el)
              (lintsOf (analyzeText harperLinter (content el))))
    as (-> & _ & -> & _).
  set (errors := lintsOf (analyzeText harperLinter (content el))).
  f_equal.
  - unfold setErrorMap. cbn. f_equal. apply insert_insert_eq.
  - unfold renderErrors, ensureOverlay.
    destruct (renderMarkup_built (content el) errors) as [html Hhtml].
    destruct (harperOverlay el) as [old|] eqn:Hold.
    + do 3 (cbn [harperOverlay withOverlay overlayCreatable outlined];
            rewrite ?Hold, ?Hhtml). done.
    + destruct (overlayCreatable el) eqn:Hcan;
        do 3 (cbn [harperOverlay withOverlay overlayCreatable outlined];
              rewrite ?Hold, ?Hhtml, ?Hcan); done.
Qed.

(** X11. When the overlay exists or can be created, [renderErrors] leaves
    in it exactly the markup built from the text and the records, and
    does not touch the outline. When it cannot be created, the element is
    outlined exactly when there is at least one record. *)
Theorem renderErrors_overlay_or_outline
  (el : Surface) (text : jsstring) (errors : list Lint) :
  (harperOverlay el = None /\ overlayCreatable el = false ->
     harperOverlay (renderErrors el text errors) = None /\
     (outlined (renderErrors el text errors) = true <-> errors <> [])) /\
  (is_Some (harperOverlay el) \/ overlayCreatable el = true ->
     exists html,
       renderMarkup text errors = Some html /\
       harperOverlay (renderErrors el text errors) = Some html /\
       outlined (renderErrors el text errors) = outlined el).
Proof.
  destruct (renderErrors_overlay el text errors) as [Hnone Hsome]. split.
  - intros Hcannot. destruct (Hnone Hcannot) as [-> ->]. split; [done|].
    destruct errors; cbn; [by split|]. split; [done|]. by intros _.
  - intros Hcan. destruct (Hsome Hcan) as [Hoverlay Houtline].
    destruct (renderMarkup_built text errors) as [html Hhtml].
    exists html. by rewrite Hoverlay, Houtline.
Qed.

Lemma renderErrors_overlay_or_outline_witness :
  let blocked := {| ident := 1; kind := PlainField; content := lit "teh";
                    caret := 3; focused := true; harperOverlay := None;
                    overlayCreatable := false; outlined := false |} in
  outlined (renderErrors blocked (lit "teh")
              (lintsOf (analyzeText (Some tehAnalyzer) (lit "teh")))) = true.
Proof.
  intros blocked.
  destruct (renderErrors_overlay_or_outline blocked (lit "teh")
              (lintsOf (analyzeText (Some tehAnalyzer) (lit "teh"))))
    as [Hblocked _].
  destruct (Hblocked (conj eq_refl eq_refl)) as [_ Houtline].
  apply Houtline. discriminate.
Defined.

(** ** The caret after a replacement *)

Lemma placeCaret_within (k : SurfaceKind) (len n : nat) :
  n <= len -> (Z.of_nat len < 2 ^ 32)%Z ->
  placeCaret k len (Num (Z.of_nat n)) = n.
Proof.
  intros Hn Hlen. change (2 ^ 32)%Z with 4294967296%Z in Hlen.
  destruct k; cbn [placeCaret].
  - change (2 ^ 32)%Z with 4294967296%Z. rewrite Z.mod_small by lia.
    rewrite Z.min_l by lia. apply Nat2Z.id.
  - destruct (Z.leb_spec (Z.of_nat n) (Z.of_nat len)); [|lia].
    destruct (Z.leb_spec 0 (Z.of_nat n)); [apply Nat2Z.id|lia].
Qed.

(** ** A correction and the backspace that follows it *)

Lemma applyTextReplacement_focused (el : Surface) (a b : nat)
  (r : jsstring) :
  kind el = PlainField ->
  focused el = true ->
  a <= b -> a <= length (content el) ->
  (Z.of_nat (length (content el) + length r) < 2 ^ 32)%Z ->
  applyTextReplacement el (Num (Z.of_nat a)) (Num (Z.of_nat b)) r
  = withText el (take a (content el) ++ r ++ drop b (content el))
      (a + length r).
Proof.
  intros Hkind Hfocus Hab Ha Hlen.
  unfold applyTextReplacement. cbn [isNaN orb addNum].
  rewrite Hkind, Hfocus, slice_prefix, sliceFrom_suffix, <- Nat2Z.inj_add.
  assert (length (take a (content el)) = a) as Hpre
    by (rewrite length_take; clear Hlen; lia).
  rewrite placeCaret_within; [done| |];
    rewrite !length_app, Hpre, length_drop;
    revert Hlen; generalize (2 ^ 32)%Z; intros; lia.
Qed.

Lemma tryAutoCorrect_run (now : nat) (g : Globals) (el : Surface)
  (errors : list ErrorRecord) (error : ErrorRecord)
  (suggestion : jsstring) (rest : list jsstring) :
  autoCorrectEnabled g = true ->
  harperErrorMap g !! ident el = Some errors ->
  caret el <= length (content el) ->
  findWordStart (content el) (wordEnd (content el) (caret el))
  <> wordEnd (content el) (caret el) ->
  matchError errors
    (findWordStart (content el) (wordEnd (content el) (caret el)))
    (wordEnd (content el) (caret el)) = Some error ->
  err_suggestions error = suggestion :: rest ->
  tryAutoCorrect now g el
  = (true,
     setLastAutoCorrection g (Some
       {| corr_element := ident el;
          originalWord :=
            substring (content el) (err_start error) (err_end error);
          correctedWord := suggestion;
          position_start := err_start error;
          position_end := err_start error + length (suggestion ++ [SPACE]);
          timestamp := now |}),
     applyTextReplacement el (Num (Z.of_nat (err_start error)))
       (Num (Z.of_nat (err_end error))) (suggestion ++ [SPACE])).
Proof.
  intros Hon Herrors Hcaret Hword Hmatch Hsugg.
  unfold tryAutoCorrect. rewrite Hon, Herrors. cbn [negb].
  pose proof (word_not_blank (content el) (wordEnd (content el) (caret el)))
    as Hblank.
  pose proof (wordEnd_le (content el) (caret el)) as Hend.
  specialize (Hblank ltac:(lia) Hword).
  apply Nat.eqb_neq in Hword, Hblank.
  by rewrite Hword, Hblank, Hmatch, Hsugg.
Qed.

(** X6. The round trip in general, in an input or a textarea. Let
    auto-correct apply the first suggestion to a record [[start, end)]
    that lies within the text of the focused field. The caret then stands
    behind the inserted space, and the record of the correction is the
    one the next backspace reverts: the space is removed, the revert
    fires, the suggestion gives way to the original word and the record is
    cleared. The text that results is the text before the correction
    without the unit at offset [end], the one that followed the corrected
    span, with the caret at [end]. *)
Theorem correction_undone_by_next_backspace
  (harperLinter : option Linter) (now later : nat) (g : Globals)
  (el : Surface) (errors : list ErrorRecord) (error : ErrorRecord)
  (suggestion : jsstring) (rest : list jsstring) :
  kind el = PlainField ->
  autoCorrectEnabled g = true ->
  harperErrorMap g !! ident el = Some errors ->
  caret el <= length (content el) ->
  findWordStart (content el) (wordEnd (content el) (caret el))
  <> wordEnd (content el) (caret el) ->
  matchError errors
    (findWordStart (content el) (wordEnd (content el) (caret el)))
    (wordEnd (content el) (caret el)) = Some error ->
  err_suggestions error = suggestion :: rest ->
  focused el = true ->
  err_start error <= err_end error <= length (content el) ->
  (Z.of_nat (length (content el) + length suggestion + 1) < 2 ^ 32)%Z ->
  let corrected := tryAutoCorrect now g el in
  exists reverted,
    keyBackspace harperLinter later corrected.1.2 corrected.2
    = Some reverted /\
    corrected.1.1 = true /\
    caret corrected.2 = err_start error + length suggestion + 1 /\
    content reverted.1.2
    = take (err_end error) (content el)
      ++ drop (S (err_end error)) (content el) /\
    caret reverted.1.2 = err_end error /\
    lastAutoCorrection reverted.1.1 = None /\
    reverted.2 = ReprocessSoon.
Proof.
  intros Hkind Hon Herrors Hcaret Hword Hmatch Hsugg Hfocus [Hspan Hend]
    Hlen.
  cbn zeta.
  rewrite (tryAutoCorrect_run now g el errors error suggestion rest)
    by done.
  cbn [fst snd].
  pose proof applyTextReplacement_focused as Hreplace.
  revert Hlen Hreplace. generalize (2 ^ 32)%Z. intros bound Hlen Hreplace.
  set (t := content el) in *. set (s := err_start error) in *.
  set (e := err_end error) in *.
  assert (length (take s t) = s) as Hpre by (rewrite length_take; lia).
  rewrite Hreplace;
    [|done|done|done|fold t; lia|fold t; rewrite length_app; cbn [length]; lia].
  fold t. rewrite length_app. cbn [length].
  replace (s + (length suggestion + 1)) with (S (s + length suggestion))
    by lia.
  set (k := s + length suggestion).
  unfold keyBackspace, pressBackspace. cbn [kind caret withText content].
  rewrite Hkind. cbn [fmap option_fmap option_map].
  eexists. split; [reflexivity|].
  split; [done|]. split; [lia|].
  unfold onInput.
  cbn [lastAutoCorrection setLastAutoCorrection].
  assert (take k (take s t ++ (suggestion ++ [SPACE]) ++ drop e t)
          ++ drop (S k) (take s t ++ (suggestion ++ [SPACE]) ++ drop e t)
          = (take s t ++ suggestion) ++ drop e t) as ->.
  { replace (take s t ++ (suggestion ++ [SPACE]) ++ drop e t)
      with ((take s t ++ suggestion) ++ [SPACE] ++ drop e t)
      by (by rewrite <- !app_assoc).
    assert (length (take s t ++ suggestion) = k) as Hk
      by (rewrite length_app; lia).
    rewrite take_app_length' by done. f_equal.
    rewrite drop_app_ge by lia. rewrite Hk.
    by replace (S k - k) with 1 by lia. }
  assert (length (substring t s e) = e - s) as Horig.
  { rewrite substring_span, length_take, length_drop by lia. lia. }
  assert (tryRevertCorrection
            (setLastAutoCorrection g
               (Some {| corr_element := ident el;
                        originalWord := substring t s e;
                        correctedWord := suggestion;
                        position_start := s;
                        position_end := S k;
                        timestamp := now |}))
            (withText
               (withText el (take s t ++ (suggestion ++ [SPACE]) ++ drop e t)
                  (S k))
               ((take s t ++ suggestion) ++ drop e t) k)
          = (true, setLastAutoCorrection g None,
             withText el (take e t ++ drop (S e) t) e)) as ->.
  { unfold tryRevertCorrection.
    cbn [lastAutoCorrection setLastAutoCorrection corr_element ident
         withText position_start position_end correctedWord originalWord
         caret].
    fold k. rewrite !Nat.eqb_refl. cbn [negb].
    rewrite Hreplace; cbn [kind focused content withText].
    - rewrite Horig. unfold withText. cbn.
      assert (length (take s t ++ suggestion) = k) as Hk
        by (rewrite length_app; lia).
      replace (s + (e - s)) with e by lia.
      assert (take s ((take s t ++ suggestion) ++ drop e t)
              ++ substring t s e
              ++ drop (S k) ((take s t ++ suggestion) ++ drop e t)
              = take e t ++ drop (S e) t) as ->; [|done].
      assert (take s ((take s t ++ suggestion) ++ drop e t) = take s t)
        as ->.
      { rewrite <- app_assoc. by rewrite take_app_length'. }
      assert (drop (S k) ((take s t ++ suggestion) ++ drop e t)
              = drop (S e) t) as ->.
      { rewrite drop_app_ge by lia. rewrite Hk, drop_drop. f_equal. lia. }
      rewrite substring_span by done. rewrite app_assoc.
      by rewrite take_span.
    - done.
    - done.
    - lia.
    - rewrite !length_app, Hpre. lia.
    - rewrite !length_app, length_drop, Horig, Hpre. lia. }
  done.
Qed.

Lemma correction_undone_by_next_backspace_witness :
  let error := {| err_start := 2; err_end := 5;
                  err_suggestions := [lit "have"] |} in
  let g := {| harperErrorMap := {[ 1 := [error] ]};
              autoCorrectEnabled := true; lastAutoCorrection := None |} in
  let el := surface PlainField (lit "I has a dog") 6 in
  exists reverted,
    keyBackspace None 1 (tryAutoCorrect 0 g el).1.2 (tryAutoCorrect 0 g el).2
    = Some reverted /\
    content reverted.1.2 = lit "I hasa dog".
Proof.
  intros error g el.
  destruct (correction_undone_by_next_backspace None 0 1 g el [error] error
              (lit "have") [])
    as (reverted & Hkey & _ & _ & Htext & _).
  - reflexivity.
  - reflexivity.
  - vm_compute. reflexivity.
  - vm_compute. lia.
  - vm_compute. lia.
  - vm_compute. reflexivity.
  - reflexivity.
  - reflexivity.
  - vm_compute. lia.
  - vm_compute. reflexivity.
  - exists reverted. split; [exact Hkey|]. rewrite Htext. reflexivity.
Defined.

(** ** From linear offsets to text nodes: the walks *)

Lemma unitsBefore_0 (nodes : list jsstring) : unitsBefore nodes 0 = 0%Z.
Proof. reflexivity. Qed.

Lemma unitsBefore_S (node : jsstring) (rest : list jsstring) (i : nat) :
  unitsBefore (node :: rest) (S i)
  = (Z.of_nat (length node) + unitsBefore rest i)%Z.
Proof. unfold unitsBefore. cbn. rewrite length_app. lia. Qed.

Lemma findCaretNode_found (nodes : list jsstring) (newPos charCount : Z)
  (index i : nat) (offset : Z) :
  findCaretNode nodes newPos charCount index = Some (i, offset) ->
  exists j node,
    i = index + j /\ nodes !! j = Some node /\
    (charCount + unitsBefore nodes j + offset = newPos)%Z /\
    (offset <= Z.of_nat (length node))%Z /\
    (0 < j -> (0 < offset)%Z).
Proof.
  revert charCount index.
  induction nodes as [|node rest IH]; intros charCount index; [done|].
  cbn [findCaretNode].
  destruct (Z.leb_spec newPos (charCount + Z.of_nat (length node)))
    as [Hhere|Hlater].
  - intros [= <- <-]. exists 0, node. rewrite unitsBefore_0.
    repeat split; try done; lia.
  - intros (j & found & -> & Hj & Hsum & Hoff & Hpos)%IH.
    exists (S j), found. rewrite unitsBefore_S.
    split; [lia|]. split; [done|]. split; [lia|]. split; [done|].
    intros _. destruct j as [|j]; [rewrite unitsBefore_0 in Hsum|]; lia.
Qed.

Lemma findCaretNode_none (nodes : list jsstring) (newPos charCount : Z)
  (index : nat) :
  findCaretNode nodes newPos charCount index = None <->
  nodes = [] \/ (charCount + Z.of_nat (length (concat nodes)) < newPos)%Z.
Proof.
  revert charCount index.
  induction nodes as [|node rest IH]; intros charCount index.
  - cbn. split; [by left|done].
  - cbn [findCaretNode concat]. rewrite length_app.
    destruct (Z.leb_spec newPos (charCount + Z.of_nat (length node)))
      as [Hhere|Hlater].
    + split; [done|]. intros [?|?]; [done|lia].
    + rewrite IH. split.
      * intros [->|Hpast]; right; [cbn; lia|lia].
      * intros [?|Hpast]; [done|]. right. lia.
Qed.

(** X13. The tree walk that places the caret in an editable region maps a
    linear offset to a text node and an offset in it: the units of the
    nodes before it and the offset add up to the linear offset, and the
    offset does not pass the end of the node; past the first node it is
    positive, and for an offset that is not negative it is not negative.
    The walk finds no node exactly when there is no text node or the
    offset lies past all the text. With the text in one node this is where
    [applyTextReplacement] leaves the caret of an editable region. *)
Theorem findCaretNode_maps_offset_to_node
  (nodes : list jsstring) (newPos : Z) :
  (findCaretNode nodes newPos 0 0 = None <->
     nodes = [] \/ (Z.of_nat (length (concat nodes)) < newPos)%Z) /\
  (forall i offset,
     findCaretNode nodes newPos 0 0 = Some (i, offset) ->
     exists node,
       nodes !! i = Some node /\
       (unitsBefore nodes i + offset = newPos)%Z /\
       (offset <= Z.of_nat (length node))%Z /\
       (0 < i -> (0 < offset)%Z) /\
       (0 <= newPos -> 0 <= offset)%Z) /\
  (forall text : jsstring,
     placeCaret EditableRegion (length text) (Num newPos)
     = match findCaretNode (match text with [] => [] | _ => [text] end)
               newPos 0 0 with
       | Some (_, offset) =>
           if (0 <=? offset)%Z then Z.to_nat offset else 0
       | None => length text
       end).
Proof.
  split; [|split].
  - rewrite findCaretNode_none. by rewrite Z.add_0_l.
  - intros i offset (j & node & -> & Hj & Hsum & Hoff & Hpos)%findCaretNode_found.
    exists node. repeat split; try done; try lia.
    intros Hnonneg. destruct j as [|j]; [rewrite unitsBefore_0 in Hsum|]; lia.
  - intros [|c text]; cbn [placeCaret findCaretNode].
    + change (Z.of_nat (length [])) with 0%Z.
      destruct (Z.leb_spec newPos 0); [|done].
      destruct (Z.leb_spec 0 newPos); [|done]. cbn. lia.
    + rewrite Z.add_0_l, Z.sub_0_r.
      by destruct (Z.leb_spec newPos (Z.of_nat (length (c :: text)))).
Qed.

Lemma findCaretNode_maps_offset_to_node_witness :
  findCaretNode [lit "I have "; lit "a dog"] 9 0 0 = Some (1, 2%Z) /\
  (unitsBefore [lit "I have "; lit "a dog"] 1 + 2 = 9)%Z.
Proof.
  destruct (findCaretNode_maps_offset_to_node [lit "I have "; lit "a dog"] 9)
    as (_ & Hfound & _).
  destruct (Hfound 1 2%Z eq_refl) as (node & _ & Hsum & _).
  split; [reflexivity|exact Hsum].
Defined.

(** ** The caret after a replacement in an editable region *)

Lemma textRuns_concat (text run : jsstring) :
  concat (textRuns text run)
  = run ++ List.filter (fun c => negb (isLineBreak c)) text.
Proof.
  revert run. induction text as [|c rest IH]; intros run.
  - destruct run; cbn; by rewrite ?app_nil_r.
  - cbn [textRuns List.filter]. destruct (isLineBreak c); cbn [negb].
    + destruct run as [|x run]; [apply IH|].
      cbn [concat]. by rewrite IH.
    + rewrite IH. by rewrite <- app_assoc.
Qed.

(** The text nodes made by an assignment of [innerText] hold the text
    without its line breaks. *)
Lemma textNodes_units (text : jsstring) :
  concat (textNodes text)
  = List.filter (fun c => negb (isLineBreak c)) text.
Proof. apply textRuns_concat. Qed.

Lemma filter_no_line_break (text : jsstring) :
  Forall (fun c => isLineBreak c = false) text ->
  List.filter (fun c => negb (isLineBreak c)) text = text.
Proof.
  induction 1 as [|c rest Hc _ IH]; [done|].
  cbn. rewrite Hc. cbn. by rewrite IH.
Qed.

Lemma unitsBefore_node (nodes : list jsstring) (j : nat) (node : jsstring) :
  nodes !! j = Some node ->
  (unitsBefore nodes j + Z.of_nat (length node)
   <= Z.of_nat (length (concat nodes)))%Z.
Proof.
  revert j. induction nodes as [|first rest IH]; intros j; [done|].
  destruct j as [|j].
  - intros [= ->]. rewrite unitsBefore_0. cbn [concat].
    rewrite length_app. lia.
  - intros Hnode%IH. rewrite unitsBefore_S. cbn [concat].
    rewrite length_app. lia.
Qed.

(** The walk in closed form: it needs the number of units in the text
    nodes and nothing else of them. *)
Lemma caretByWalk_closed_form (nodes : list jsstring) (newPos : jsnum) :
  caretByWalk nodes newPos
  = placeCaret EditableRegion (length (concat nodes)) newPos.
Proof.
  destruct newPos as [|z]; [done|]. cbn [caretByWalk placeCaret].
  destruct (findCaretNode nodes z 0 0) as [[i offset]|] eqn:Hwalk.
  - apply findCaretNode_found in Hwalk
      as (j & node & -> & Hnode & Hsum & Hoff & Hpos).
    pose proof (unitsBefore_node nodes j node Hnode) as Hfits.
    cbn [Nat.add].
    assert (0 <= unitsBefore nodes j)%Z as Hbefore
      by (unfold unitsBefore; lia).
    destruct (Z.leb_spec z (Z.of_nat (length (concat nodes)))); [|lia].
    destruct (Z.leb_spec 0 offset) as [Hin|Hout].
    + destruct (Z.leb_spec 0 z); [|lia]. f_equal. lia.
    + destruct (Z.leb_spec 0 z) as [Hz|]; [|done].
      destruct j as [|j]; [rewrite unitsBefore_0 in Hsum; lia|].
      specialize (Hpos ltac:(lia)). lia.
  - apply findCaretNode_none in Hwalk as [->|Hpast].
    + change (length (concat [])) with 0. change (Z.of_nat 0) with 0%Z.
      destruct (Z.leb_spec z 0); [|done].
      destruct (Z.leb_spec 0 z); [|done]. lia.
    + destruct (Z.leb_spec z (Z.of_nat (length (concat nodes)))); [lia|done].
Qed.

(** X12. After a replacement in the element that has the focus, of a span
    that is not inverted and starts within the old text, the caret of an
    input or a textarea stands right behind the inserted text. In an
    editable region the walk counts the units of the text nodes, which
    leave out the line breaks of the new text: the caret, read as the
    number of units of text before it, is at [start + length(replacement)]
    when the text nodes hold that many units and at the end of the
    contents when they do not. It stands right behind the inserted text
    when the new text holds no line break. The other attributes of the
    element are untouched. *)
Theorem applyTextReplacement_caret_behind_insertion
  (el : Surface) (a b : nat) (r : jsstring) :
  focused el = true ->
  a <= b -> a <= length (content el) ->
  (Z.of_nat (length (content el) + length r) < 2 ^ 32)%Z ->
  let after :=
    applyTextReplacement el (Num (Z.of_nat a)) (Num (Z.of_nat b)) r in
  let textUnits :=
    length (List.filter (fun c => negb (isLineBreak c)) (content after)) in
  caret after
  = match kind el with
    | PlainField => a + length r
    | EditableRegion => (a + length r) `min` textUnits
    end /\
  (kind el = PlainField \/
   Forall (fun c => isLineBreak c = false) (content after) ->
   caret after = a + length r /\
   take (caret after) (content after) = take a (content el) ++ r) /\
  ident after = ident el /\ kind after = kind el /\
  focused after = true /\ harperOverlay after = harperOverlay el.
Proof.
  intros Hfocus Hab Ha Hlen after textUnits. subst after textUnits.
  unfold applyTextReplacement. cbn [isNaN orb addNum].
  rewrite Hfocus, slice_prefix, sliceFrom_suffix.
  cbn [withText caret content ident kind focused harperOverlay].
  rewrite <- Nat2Z.inj_add.
  assert (length (take a (content el)) = a) as Hpre
    by (rewrite length_take; lia).
  set (newText := take a (content el) ++ r ++ drop b (content el)).
  assert (a + length r <= length newText) as Hin
    by (unfold newText; rewrite !length_app, Hpre; lia).
  assert (Z.of_nat (length newText) < 2 ^ 32)%Z as Hbound.
  { unfold newText. rewrite !length_app, Hpre, length_drop.
    revert Hlen. generalize (2 ^ 32)%Z. intros. lia. }
  assert (take (a + length r) newText = take a (content el) ++ r) as Htake.
  { unfold newText. rewrite app_assoc, take_app_length'; [done|].
    rewrite length_app. lia. }
  assert (match kind el with
          | PlainField =>
              placeCaret PlainField (length newText)
                (Num (Z.of_nat (a + length r)))
          | EditableRegion =>
              caretByWalk (textNodes newText) (Num (Z.of_nat (a + length r)))
          end
          = match kind el with
            | PlainField => a + length r
            | EditableRegion =>
                (a + length r)
                `min` length (List.filter (fun c => negb (isLineBreak c))
                                newText)
            end) as ->.
  { destruct (kind el).
    - by apply placeCaret_within.
    - rewrite caretByWalk_closed_form, textNodes_units.
      cbn [placeCaret].
      destruct (Z.leb_spec (Z.of_nat (a + length r))
                  (Z.of_nat (length (List.filter
                     (fun c => negb (isLineBreak c)) newText)))).
      + destruct (Z.leb_spec 0 (Z.of_nat (a + length r))); lia.
      + lia. }
  split; [done|]. split; [|done].
  intros [Hfield|Hline].
  - rewrite Hfield. by split.
  - rewrite (filter_no_line_break _ Hline).
    destruct (kind el); rewrite ?Nat.min_l by lia; by split.
Qed.

Lemma applyTextReplacement_caret_behind_insertion_witness :
  let el := surface EditableRegion (lit "a" ++ [10%N] ++ lit "b") 0 in
  content (applyTextReplacement el (Num 3) (Num 3) (lit "c"))
  = lit "a" ++ [10%N] ++ lit "bc" /\
  caret (applyTextReplacement el (Num 3) (Num 3) (lit "c")) = 3.
Proof.
  intros el.
  destruct (applyTextReplacement_caret_behind_insertion el 3 3 (lit "c"))
    as [Hcaret _];
    [reflexivity | lia | vm_compute; lia | vm_compute; reflexivity |].
  split; [reflexivity|].
  change (Num 3) with (Num (Z.of_nat 3)). rewrite Hcaret. reflexivity.
Defined.

Lemma findRangeNodes_end (nodes : list jsstring) (start stop cur : Z)
  (index : nat) (found : nat * Z) :
  (cur < stop <= cur + Z.of_nat (length (concat nodes)))%Z ->
  exists j node,
    findRangeNodes nodes start stop cur index (Some found)
    = (Some found, Some (index + j, (stop - (cur + unitsBefore nodes j))%Z))
    /\ nodes !! j = Some node /\
    (0 < stop - (cur + unitsBefore nodes j) <= Z.of_nat (length node))%Z.
Proof.
  revert cur index.
  induction nodes as [|node rest IH]; intros cur index Hstop.
  - cbn in Hstop. lia.
  - cbn [findRangeNodes]. cbn [concat] in Hstop. rewrite length_app in Hstop.
    destruct (Z.leb_spec stop (cur + Z.of_nat (length node))) as [Hhere|Hlater].
    + exists 0, node. rewrite unitsBefore_0, Nat.add_0_r, Z.add_0_r.
      split; [done|]. split; [done|lia].
    + destruct (IH (cur + Z.of_nat (length node))%Z (S index))
        as (j & last & Hrun & Hj & Hoff); [lia|].
      exists (S j), last. rewrite unitsBefore_S, Hrun.
      split; [|split; [done|lia]].
      do 3 f_equal; lia.
Qed.

Lemma findRangeNodes_both (nodes : list jsstring) (start stop cur : Z)
  (index : nat) :
  (cur <= start < stop)%Z ->
  (stop <= cur + Z.of_nat (length (concat nodes)))%Z ->
  exists i j first last,
    findRangeNodes nodes start stop cur index None
    = (Some (index + i, (start - (cur + unitsBefore nodes i))%Z),
       Some (index + j, (stop - (cur + unitsBefore nodes j))%Z)) /\
    i <= j /\
    nodes !! i = Some first /\ nodes !! j = Some last /\
    (0 <= start - (cur + unitsBefore nodes i) < Z.of_nat (length first))%Z /\
    (0 < stop - (cur + unitsBefore nodes j) <= Z.of_nat (length last))%Z.
Proof.
  revert cur index.
  induction nodes as [|node rest IH]; intros cur index Hstart Hstop.
  - cbn in Hstop. lia.
  - cbn [findRangeNodes]. cbn [concat] in Hstop. rewrite length_app in Hstop.
    destruct (Z.ltb_spec start (cur + Z.of_nat (length node)))
      as [Hin|Hafter].
    + destruct (Z.leb_spec stop (cur + Z.of_nat (length node)))
        as [Hhere|Hlater].
      * exists 0, 0, node, node.
        rewrite unitsBefore_0, Nat.add_0_r, Z.add_0_r.
        repeat split; try done; lia.
      * destruct (findRangeNodes_end rest start stop
                    (cur + Z.of_nat (length node))%Z (S index)
                    (index, (start - cur)%Z))
          as (j & last & Hrun & Hj & Hoff); [lia|].
        exists 0, (S j), node, last.
        rewrite unitsBefore_0, unitsBefore_S, Nat.add_0_r, Z.add_0_r, Hrun.
        split; [do 3 f_equal; lia|]. split; [lia|].
        split; [done|]. split; [done|]. lia.
    + destruct (Z.leb_spec stop (cur + Z.of_nat (length node))); [lia|].
      destruct (IH (cur + Z.of_nat (length node))%Z (S index))
        as (i & j & first & last & Hrun & Hij & Hi & Hj & Hso & Heo);
        [lia|lia|].
      exists (S i), (S j), first, last. rewrite !unitsBefore_S, Hrun.
      split; [do 3 f_equal; lia|]. split; [lia|].
      split; [done|]. split; [done|]. lia.
Qed.

Lemma findRangeNodes_past (nodes : list jsstring) (start stop cur : Z)
  (index : nat) (startNode : option (nat * Z)) :
  (cur + Z.of_nat (length (concat nodes)) < stop)%Z ->
  (findRangeNodes nodes start stop cur index startNode).2 = None.
Proof.
  revert cur index startNode.
  induction nodes as [|node rest IH]; intros cur index startNode Hpast;
    [done|].
  cbn [findRangeNodes]. cbn [concat] in Hpast. rewrite length_app in Hpast.
  destruct (Z.leb_spec stop (cur + Z.of_nat (length node))); [lia|].
  apply IH. lia.
Qed.

(** X14. The loop that places the highlight in an editable region maps a
    range that is not empty and lies within the text of the nodes to a
    start node and an end node, the start not after the end. The start
    offset points at a unit of its node, the end offset lies behind one
    of its node, and each, with the units of the nodes before it, adds up
    to the linear offset it stands for. When the range ends past all the
    text, no end node is found and nothing is highlighted. *)
Theorem findRangeNodes_maps_range_to_nodes
  (nodes : list jsstring) (start stop : Z) :
  ((0 <= start < stop)%Z ->
   (stop <= Z.of_nat (length (concat nodes)))%Z ->
   exists i j first last startOffset endOffset,
     findRangeNodes nodes start stop 0 0 None
     = (Some (i, startOffset), Some (j, endOffset)) /\
     i <= j /\
     nodes !! i = Some first /\ nodes !! j = Some last /\
     (unitsBefore nodes i + startOffset = start)%Z /\
     (0 <= startOffset < Z.of_nat (length first))%Z /\
     (unitsBefore nodes j + endOffset = stop)%Z /\
     (0 < endOffset <= Z.of_nat (length last))%Z) /\
  ((Z.of_nat (length (concat nodes)) < stop)%Z ->
   (findRangeNodes nodes start stop 0 0 None).2 = None).
Proof.
  split.
  - intros Hstart Hstop.
    destruct (findRangeNodes_both nodes start stop 0 0)
      as (i & j & first & last & Hrun & Hij & Hi & Hj & Hso & Heo);
      [lia|lia|].
    exists i, j, first, last. eexists _, _. rewrite Hrun.
    repeat split; try done; lia.
  - intros Hpast. apply findRangeNodes_past. lia.
Qed.

Lemma findRangeNodes_maps_range_to_nodes_witness :
  findRangeNodes [lit "I "; lit "have "; lit "a dog"] 2 7 0 0 None
  = (Some (1, 0%Z), Some (1, 5%Z)).
Proof.
  destruct (findRangeNodes_maps_range_to_nodes
              [lit "I "; lit "have "; lit "a dog"] 2 7) as [Hin _].
  destruct Hin as (i & j & first & last & so & eo & Hrun & _);
    [lia | vm_compute; discriminate |].
  reflexivity.
Defined.

(** ** Rendering: what goes into the tag *)

Lemma hexUpper_safe (d : N) : attributeSafe (hexUpper d) = true.
Proof.
  unfold hexUpper, attributeSafe.
  destruct (N.ltb_spec d 10);
    rewrite !(proj2 (N.eqb_neq _ _)) by lia; done.
Qed.

Lemma unreserved_safe (c : N) :
  isUnreserved c = true -> attributeSafe c = true.
Proof.
  intros Hc. unfold attributeSafe.
  destruct (N.eqb_spec c 60) as [->|_]; [done|].
  destruct (N.eqb_spec c 62) as [->|_]; [done|].
  destruct (N.eqb_spec c 34) as [->|_]; [done|].
  destruct (N.eqb_spec c 38) as [->|_]; done.
Qed.

Lemma percentEncode_safe (cp : N) :
  Forall (fun c => attributeSafe c = true) (percentEncode cp).
Proof.
  unfold percentEncode. apply Forall_bind. apply Forall_true. intros b.
  repeat constructor; apply hexUpper_safe.
Qed.

Lemma encodeURIComponent_safe (s out : jsstring) :
  encodeURIComponent s = Some out ->
  Forall (fun c => attributeSafe c = true) out.
Proof.
  revert out.
  induction s as [| x | x y s IHs IHys] using list_pair_ind; intros out.
  - by intros [= <-].
  - cbn [encodeURIComponent]. destruct (isUnreserved x) eqn:Hx.
    + intros [= <-]. repeat constructor. by apply unreserved_safe.
    + destruct (isTrailSurrogate x); [done|].
      destruct (isLeadSurrogate x); [done|]. intros [= <-].
      rewrite app_nil_r. apply percentEncode_safe.
  - change (encodeURIComponent (x :: y :: s))
      with (if isUnreserved x
            then (x ::.) <$> encodeURIComponent (y :: s)
            else if isTrailSurrogate x then None
            else if isLeadSurrogate x then
                   if isTrailSurrogate y then
                     (percentEncode
                        ((x - 55296) * 1024 + (y - 56320) + 65536)%N ++.)
                     <$> encodeURIComponent s
                   else None
            else (percentEncode x ++.) <$> encodeURIComponent (y :: s)).
    destruct (isUnreserved x) eqn:Hx.
    + destruct (encodeURIComponent (y :: s)) as [tail|]; [|done].
      intros [= <-]. constructor; [by apply unreserved_safe|by apply IHys].
    + destruct (isTrailSurrogate x); [done|].
      destruct (isLeadSurrogate x).
      * destruct (isTrailSurrogate y); [|done].
        destruct (encodeURIComponent s) as [tail|]; [|done].
        intros [= <-]. apply Forall_app.
        split; [apply percentEncode_safe|by apply IHs].
      * destruct (encodeURIComponent (y :: s)) as [tail|]; [|done].
        intros [= <-]. apply Forall_app.
        split; [apply percentEncode_safe|by apply IHys].
Qed.

(** X15. The value of the [data-suggestions] attribute is always built,
    whatever the suggestions hold, and none of its units can end the
    attribute or the tag: it holds no quote, no angle bracket and no
    ampersand. *)
Theorem suggestions_attribute_is_safe (suggestions : list jsstring) :
  exists value,
    encodeURIComponent (JSON_stringify suggestions) = Some value /\
    Forall (fun c => c <> 34%N /\ c <> 60%N /\ c <> 62%N /\ c <> 38%N)
      value.
Proof.
  destruct (suggestionsJson_built suggestions) as [value Hvalue].
  exists value. split; [done|].
  eapply Forall_impl; [by apply (encodeURIComponent_safe _ _ Hvalue)|].
  intros c Hc. unfold attributeSafe in Hc.
  destruct (N.eqb_spec c 60), (N.eqb_spec c 62), (N.eqb_spec c 34),
    (N.eqb_spec c 38); done.
Qed.

(** ** Rendering: records that are apart give valid markup *)

Lemma attributeSafe_noAngle (c : N) :
  attributeSafe c = true -> noAngle c = true.
Proof.
  unfold attributeSafe, noAngle.
  destruct (c =? 60)%N, (c =? 62)%N; done.
Qed.

Lemma noAngle_60 (c : N) : noAngle c = true -> (c =? 60)%N = false.
Proof. unfold noAngle. by destruct (c =? 60)%N. Qed.

Lemma noAngle_62 (c : N) : noAngle c = true -> (c =? 62)%N = false.
Proof. unfold noAngle. by destruct (c =? 60)%N, (c =? 62)%N. Qed.

Lemma textOutsideTags_plain (s rest : jsstring) :
  Forall (fun c => noAngle c = true) s ->
  textOutsideTags (s ++ rest) false = s ++ textOutsideTags rest false.
Proof.
  induction 1 as [|c s Hc _ IH]; [done|].
  cbn [app textOutsideTags]. by rewrite (noAngle_60 c Hc), IH.
Qed.

Lemma textOutsideTags_tag (body rest : jsstring) :
  Forall (fun c => noAngle c = true) body ->
  textOutsideTags (body ++ 62%N :: rest) true = textOutsideTags rest false.
Proof.
  induction 1 as [|c s Hc _ IH]; [done|].
  cbn [app textOutsideTags]. by rewrite (noAngle_62 c Hc).
Qed.

Lemma spanDepth_plain (s rest : jsstring) (depth : nat) :
  Forall (fun c => noAngle c = true) s ->
  spanDepth (s ++ rest) depth = spanDepth rest depth.
Proof.
  induction 1 as [|c s Hc _ IH]; [done|].
  cbn [app spanDepth].
  change (lit "</span>") with (60%N :: lit "/span>").
  change (lit "<span") with (60%N :: lit "span").
  cbn [startsWith]. rewrite N.eqb_sym, (noAngle_60 c Hc). exact IH.
Qed.

Lemma decimal_digits (d : Decimal.uint) :
  Forall (fun c => attributeSafe c = true) (lit (NilEmpty.string_of_uint d)).
Proof. induction d; cbn; constructor; done. Qed.

Lemma getErrorColor_safe (kindRaw : jsstring) :
  Forall (fun c => attributeSafe c = true) (getErrorColor kindRaw).
Proof.
  unfold getErrorColor. repeat (destruct (includes _ _)); repeat constructor.
Qed.

Lemma tagAttributes_noAngle (error : Lint) (sj : jsstring) :
  Forall (fun c => attributeSafe c = true) sj ->
  Forall (fun c => noAngle c = true) (tagAttributes error sj).
Proof.
  intros Hsj. unfold tagAttributes. rewrite !Forall_app.
  pose proof (getErrorColor_safe (lint_kind error)) as Hcolor.
  pose proof (decimal_digits (Nat.to_uint (span_start error))) as Hstart.
  pose proof (decimal_digits (Nat.to_uint (span_end error))) as Hend.
  repeat split;
    first [ by repeat constructor
          | eapply Forall_impl; [eassumption|];
            intros c Hc; by apply attributeSafe_noAngle ].
Qed.

Lemma spanHtml_shape (text : jsstring) (error : Lint) (sj : jsstring) :
  spanHtml text error sj
  = 60%N :: (lit "span class=" ++ tagAttributes error sj)
    ++ 62%N :: slice text (Num (Z.of_nat (span_start error)))
                 (Num (Z.of_nat (span_end error)))
    ++ 60%N :: lit "/span" ++ 62%N :: [].
Proof.
  unfold spanHtml, tagAttributes. rewrite <- !app_assoc. reflexivity.
Qed.

Lemma spanHtml_text (text : jsstring) (error : Lint) (sj rest : jsstring) :
  Forall (fun c => attributeSafe c = true) sj ->
  Forall (fun c => noAngle c = true) text ->
  textOutsideTags (spanHtml text error sj ++ rest) false
  = take (span_end error - span_start error) (drop (span_start error) text)
    ++ textOutsideTags rest false.
Proof.
  intros Hsj Htext. rewrite spanHtml_shape, slice_span.
  cbn [app textOutsideTags N.eqb Pos.eqb negb].
  rewrite <- app_assoc. cbn [app].
  rewrite textOutsideTags_tag.
  2: { apply Forall_app. split; [by repeat constructor|].
       by apply tagAttributes_noAngle. }
  rewrite <- app_assoc, textOutsideTags_plain
    by by apply Forall_take, Forall_drop.
  by f_equal.
Qed.

Lemma spanDepth_skip (s rest : jsstring) (depth : nat) :
  Forall (fun c => (c =? 60)%N = false) s ->
  spanDepth (s ++ rest) depth = spanDepth rest depth.
Proof.
  induction 1 as [|c s Hc _ IH]; [done|].
  cbn [app spanDepth].
  change (lit "</span>") with (60%N :: lit "/span>").
  change (lit "<span") with (60%N :: lit "span").
  cbn [startsWith]. rewrite N.eqb_sym, Hc. exact IH.
Qed.

Lemma noAngle_skip (s : jsstring) :
  Forall (fun c => noAngle c = true) s ->
  Forall (fun c => (c =? 60)%N = false) s.
Proof.
  intros Hs. eapply Forall_impl; [exact Hs|]. intros c. apply noAngle_60.
Qed.

Lemma spanHtml_depth (text : jsstring) (error : Lint) (sj rest : jsstring)
  (depth : nat) :
  Forall (fun c => attributeSafe c = true) sj ->
  Forall (fun c => noAngle c = true) text ->
  spanDepth (spanHtml text error sj ++ rest) depth = spanDepth rest depth.
Proof.
  intros Hsj Htext.
  set (inner := take (span_end error - span_start error)
                  (drop (span_start error) text)).
  assert (spanHtml text error sj ++ rest
          = 60%N :: (lit "span class=" ++ tagAttributes error sj
                     ++ 62%N :: inner)
            ++ 60%N :: lit "/span>" ++ rest) as ->.
  { rewrite spanHtml_shape, slice_span. fold inner.
    do 3 (cbn [app]; rewrite <- ?app_assoc). reflexivity. }
  assert (Forall (fun c => (c =? 60)%N = false)
            (lit "span class=" ++ tagAttributes error sj ++ 62%N :: inner))
    as Hbody.
  { rewrite !Forall_app. split; [by repeat constructor|]. split.
    - by apply noAngle_skip, tagAttributes_noAngle.
    - constructor; [done|]. by apply noAngle_skip, Forall_take, Forall_drop. }
  transitivity
    (spanDepth ((lit "span class=" ++ tagAttributes error sj
                 ++ 62%N :: inner) ++ 60%N :: lit "/span>" ++ rest)
       (S depth)); [reflexivity|].
  rewrite spanDepth_skip by done.
  transitivity (spanDepth (lit "/span>" ++ rest) depth); [reflexivity|].
  apply spanDepth_skip. by repeat constructor.
Qed.

Lemma insertByStart_liesBefore (x : Lint) (l : list Lint) :
  span_start x < span_end x ->
  Forall (fun y => span_start y < span_end y) l ->
  Forall (apart x) l ->
  StronglySorted liesBefore l ->
  StronglySorted liesBefore (insertByStart x l).
Proof.
  intros Hx Hproper Hapart Hsorted.
  induction Hsorted as [|y l Hl IH Hy]; cbn [insertByStart].
  - repeat constructor.
  - apply Forall_cons in Hproper as [Hyproper Hproper].
    apply Forall_cons in Hapart as [Hxy Hapart].
    destruct (Nat.leb_spec (span_start y) (span_start x)) as [Hle|Hgt].
    + constructor; [by constructor|]. constructor.
      * unfold liesBefore. destruct Hxy; lia.
      * eapply Forall_impl; [exact Hy|]. unfold liesBefore. intros z Hz. lia.
    + constructor; [by apply IH|].
      rewrite insertByStart_perm. constructor; [|exact Hy].
      unfold liesBefore. destruct Hxy; lia.
Qed.

Lemma sortByStartDescending_liesBefore (errors : list Lint) :
  Forall (fun y => span_start y < span_end y) errors ->
  ForallOrdPairs apart errors ->
  StronglySorted liesBefore (sortByStartDescending errors).
Proof.
  intros Hproper Hapart.
  induction Hapart as [|x l Hx Hl IH]; cbn; [constructor|].
  apply Forall_cons in Hproper as [Hxproper Hproper].
  apply insertByStart_liesBefore; [done| | |by apply IH].
  - by rewrite sortByStartDescending_perm.
  - by rewrite sortByStartDescending_perm.
Qed.

Lemma drop_span (t : jsstring) (s e b : nat) :
  s <= e -> e <= b -> b <= length t ->
  take (e - s) (drop s t) ++ drop e (take b t) ++ drop b t = drop s t.
Proof.
  intros Hse Heb Hb.
  rewrite <- drop_app_le by (rewrite length_take; lia).
  rewrite take_drop.
  rewrite <- (take_drop (e - s) (drop s t)) at 2.
  f_equal. rewrite drop_drop. f_equal. lia.
Qed.

Lemma wrap_step (text tail : jsstring) (bound : nat) (error : Lint) :
  Forall (fun c => noAngle c = true) text ->
  bound <= length text ->
  span_start error < span_end error <= bound ->
  wrappedFrom text bound tail ->
  exists tail',
    spliceError text (Some (take bound text ++ tail)) error
    = Some (take (span_start error) text ++ tail') /\
    wrappedFrom text (span_start error) tail'.
Proof.
  intros Htext Hbound [Hspan Hend] [Hvisible Hdepth].
  destruct (spliceError_built text (take bound text ++ tail) error)
    as (sj & Hsj & ->).
  pose proof (encodeURIComponent_safe _ _ Hsj) as Hsafe.
  exists (spanHtml text error sj
          ++ drop (span_end error) (take bound text) ++ tail).
  assert (length (take bound text) = bound) as Hlen
    by (rewrite length_take; lia).
  split.
  - f_equal. rewrite take_app_le by lia. rewrite take_take.
    rewrite Nat.min_l by lia. f_equal. f_equal.
    by rewrite drop_app_le by lia.
  - split.
    + rewrite spanHtml_text by done.
      rewrite textOutsideTags_plain by by apply Forall_drop, Forall_take.
      rewrite Hvisible. apply drop_span; lia.
    + intros depth. rewrite spanHtml_depth by done.
      rewrite spanDepth_skip; [apply Hdepth|].
      by apply noAngle_skip, Forall_drop, Forall_take.
Qed.

Lemma wrap_all (text : jsstring) (errors : list Lint) (bound : nat)
  (tail : jsstring) :
  Forall (fun c => noAngle c = true) text ->
  bound <= length text ->
  wrappedFrom text bound tail ->
  StronglySorted liesBefore errors ->
  Forall (fun e => span_start e < span_end e <= bound) errors ->
  exists bound' tail',
    foldl (spliceError text) (Some (take bound text ++ tail)) errors
    = Some (take bound' text ++ tail') /\
    bound' <= length text /\ wrappedFrom text bound' tail'.
Proof.
  intros Htext. revert bound tail.
  induction errors as [|error errors IH];
    intros bound tail Hbound Hwrapped Hsorted Hspans.
  - by exists bound, tail.
  - apply Forall_cons in Hspans as [Hspan Hspans].
    apply StronglySorted_inv in Hsorted as [Hsorted Hbefore].
    destruct (wrap_step text tail bound error Htext Hbound Hspan Hwrapped)
      as (tail' & Hstep & Hwrapped').
    cbn [foldl]. rewrite Hstep.
    apply IH; [lia|done|done|].
    rewrite Forall_forall in Hspans, Hbefore. apply Forall_forall.
    intros e He. specialize (Hspans e He). specialize (Hbefore e He).
    unfold liesBefore in Hbefore. lia.
Qed.

(** X10. When the text holds no markup of its own and the records are not
    empty, lie within the text and are apart from one another, the markup
    [renderErrors] builds is valid: every tag that is opened is closed,
    and the text between the tags is the text of the element. *)
Theorem renderMarkup_valid_for_records_apart
  (text : jsstring) (errors : list Lint) :
  markupFree text ->
  Forall (properSpan text) errors ->
  ForallOrdPairs apart errors ->
  exists html,
    renderMarkup text errors = Some html /\
    balancedSpans html = true /\
    visibleText html = text /\
    validMarkup text html = true.
Proof.
  intros Hfree Hproper Hapart.
  assert (Forall (fun c => noAngle c = true) text) as Htext.
  { eapply Forall_impl; [exact Hfree|]. intros c (H60 & H62 & _).
    unfold noAngle. by rewrite !(proj2 (N.eqb_neq _ _)). }
  destruct (wrap_all text (sortByStartDescending errors) (length text) [])
    as (bound & tail & Hrun & Hbound & Hvisible & Hdepth).
  - done.
  - done.
  - split; [by rewrite drop_all|done].
  - apply sortByStartDescending_liesBefore; [|done].
    eapply Forall_impl; [exact Hproper|]. by intros e [? _].
  - rewrite sortByStartDescending_perm. exact Hproper.
  - rewrite firstn_all, app_nil_r in Hrun.
    exists (take bound text ++ tail). split; [exact Hrun|].
    assert (balancedSpans (take bound text ++ tail) = true) as Hbalanced.
    { unfold balancedSpans.
      rewrite spanDepth_skip by by apply noAngle_skip, Forall_take.
      by rewrite Hdepth. }
    assert (visibleText (take bound text ++ tail) = text) as Htextual.
    { unfold visibleText.
      rewrite textOutsideTags_plain by by apply Forall_take.
      rewrite Hvisible. apply take_drop. }
    split; [done|]. split; [done|].
    unfold validMarkup. rewrite Hbalanced, Htextual. by rewrite bool_decide_true.
Qed.

Lemma renderMarkup_valid_for_records_apart_witness :
  let text := lit "teh cat sat" in
  let lints :=
    [ {| span_start := 0; span_end := 3; lint_kind := lit "Spelling";
         lint_suggestions := [lit "the"] |};
      {| span_start := 8; span_end := 11; lint_kind := lit "Style";
         lint_suggestions := [] |} ] in
  exists html,
    renderMarkup text lints = Some html /\ validMarkup text html = true.
Proof.
  intros text lints.
  destruct (renderMarkup_valid_for_records_apart text lints)
    as (html & Hrun & _ & _ & Hvalid).
  - unfold markupFree. apply (bool_decide_unpack _). vm_compute. exact I.
  - unfold lints.
    apply Forall_cons; split; [unfold properSpan, text; vm_compute; lia|].
    apply Forall_cons; split; [unfold properSpan, text; vm_compute; lia|].
    by apply Forall_nil.
  - unfold lints. constructor; [|repeat constructor].
    constructor; [|constructor]. left. cbn. lia.
  - by exists html.
Defined.

(** ** Rendering: the order of the records *)

Lemma insertByStart_filter (v : nat) (x : Lint) (l : list Lint) :
  StronglySorted descending l ->
  filter (fun e => span_start e = v) (insertByStart x l)
  = filter (fun e => span_start e = v) (x :: l).
Proof.
  induction 1 as [|y l Hl IH Hy]; [done|].
  cbn [insertByStart].
  destruct (Nat.leb_spec (span_start y) (span_start x)) as [Hle|Hgt]; [done|].
  rewrite filter_cons, IH, !filter_cons.
  destruct (decide (span_start y = v)) as [Hyv|Hyv];
    destruct (decide (span_start x = v)) as [Hxv|Hxv]; try done.
  lia.
Qed.

(** X5. [renderErrors] takes every record exactly once, in descending
    order of start, and records that start at the same offset in the
    order in which the analyzer gave them. *)
Theorem renderErrors_processing_order (errors : list Lint) :
  sortByStartDescending errors ≡ₚ errors /\
  StronglySorted descending (sortByStartDescending errors) /\
  forall v,
    filter (fun e => span_start e = v) (sortByStartDescending errors)
    = filter (fun e => span_start e = v) errors.
Proof.
  split; [apply sortByStartDescending_perm|].
  split; [apply sortByStartDescending_sorted|].
  intros v. induction errors as [|x l IH]; [done|].
  cbn [sortByStartDescending foldr].
  rewrite insertByStart_filter by apply sortByStartDescending_sorted.
  rewrite !filter_cons. fold (sortByStartDescending l). by rewrite IH.
Qed.

(** X16. Building the markup never throws, whatever the text and the
    records are: [renderErrors] always comes back, records out of range
    or inverted and suggestions with lone surrogates included. *)
Theorem renderMarkup_always_returns (text : jsstring) (errors : list Lint) :
  exists html, renderMarkup text errors = Some html.
Proof. apply renderMarkup_built. Qed.

(** X22. With records that lie within the text, every splice of
    [renderErrors] cuts a range of the markup built so far that is in
    bounds and not inverted, whether the records overlap or not: the
    markup never gets shorter than the text. *)
Theorem renderMarkup_every_splice_in_bounds (text : jsstring)
  (errors processed todo : list Lint) (error : Lint) :
  Forall (withinText text) errors ->
  sortByStartDescending errors = processed ++ error :: todo ->
  exists html,
    foldl (spliceError text) (Some text) processed = Some html /\
    length text <= length html /\
    span_start error <= span_end error <= length html.
Proof.
  intros Hall Hsplit.
  assert (Forall (withinText text) (processed ++ error :: todo)) as Hsorted.
  { rewrite <- Hsplit. by rewrite sortByStartDescending_perm. }
  apply Forall_app in Hsorted as [Hprocessed Hrest].
  apply Forall_cons in Hrest as [[Hspan Hend] _].
  destruct (foldl_spliceError_built text processed text) as [html Hhtml].
  exists html. split; [exact Hhtml|].
  pose proof (foldl_spliceError_grows text processed text html
                Hprocessed ltac:(lia) Hhtml). lia.
Qed.

Lemma renderMarkup_every_splice_in_bounds_witness :
  exists html,
    foldl (spliceError (lit "abcdefgh")) (Some (lit "abcdefgh"))
      (take 1 (sortByStartDescending overlappingLints)) = Some html /\
    length (lit "abcdefgh") <= length html /\
    0 <= 5 <= length html.
Proof.
  apply (renderMarkup_every_splice_in_bounds (lit "abcdefgh")
           overlappingLints
           (take 1 (sortByStartDescending overlappingLints)) []
           {| span_start := 0; span_end := 5; lint_kind := lit "Spelling";
              lint_suggestions := [] |}).
  - repeat (apply Forall_cons; split;
            [unfold withinText; vm_compute; lia|]).
    by apply Forall_nil.
  - reflexivity.
Defined.

(** ** The tooltip after a pass *)

Lemma find_fmap {A B} (h : A -> B) (f : B -> bool) (l : list A) :
  List.find f (h <$> l) = h <$> List.find (fun x => f (h x)) l.
Proof.
  induction l as [|x l IH]; [done|].
  cbn [fmap list_fmap List.find]. by destruct (f (h x)).
Qed.

(** X17. After a pass the tooltip resolver works on what the analyzer
    reported for the text of the element: the record it finds is the
    first lint, in the order of the analyzer, whose span contains the
    caret with both ends included, with its offsets and its suggestions
    unchanged. *)
Theorem handleContextMenu_after_pass
  (harperLinter : option Linter) (g : Globals) (el : Surface) :
  let after := processElement harperLinter g el in
  let lints := lintsOf (analyzeText harperLinter (content el)) in
  handleContextMenu after.1 after.2
  = toErrorRecord <$>
      List.find (fun e => (span_start e <=? caret el)
                          && (caret el <=? span_end e)) lints.
Proof.
  cbn zeta. unfold handleContextMenu, processElement, resolvePass, startPass.
  cbn [fst snd pass_text pass_element setErrorMap harperErrorMap].
  destruct (renderErrors_text el (content el)
              (lintsOf (analyzeText harperLinter (content el))))
    as (-> & _ & _ & -> & _).
  rewrite lookup_insert_eq.
  apply (find_fmap toErrorRecord (containsCaret (caret el))).
Qed.

(** ** Text the analyzer finds nothing in *)

(** X19. When the analyzer reports nothing for the text of the element, a
    typed space corrects nothing, with auto-correct on or off: the text,
    the caret and the record of the last correction stay as they are, and
    the debounced pass is what is scheduled. *)
Theorem onInput_space_on_clean_text
  (harperLinter : option Linter) (now : nat) (g : Globals) (el : Surface) :
  lintsOf (analyzeText harperLinter (content el)) = [] ->
  let after := onInput harperLinter now (InsertText [SPACE]) g el in
  content after.1.2 = content el /\
  caret after.1.2 = caret el /\
  lastAutoCorrection after.1.1 = lastAutoCorrection g /\
  after.2 = ReprocessDebounced.
Proof.
  intros Hclean. cbn zeta. unfold onInput.
  destruct (autoCorrectEnabled g) eqn:Hon; cbn [andb isSpace]; [|done].
  change (SPACE =? SPACE)%N with true. cbn iota.
  unfold processElement, resolvePass, startPass.
  cbn [pass_text pass_element]. rewrite Hclean.
  destruct (renderErrors_text el (content el) [])
    as (Hident & _ & Htext & Hcaret & _).
  unfold tryAutoCorrect.
  cbn [autoCorrectEnabled setErrorMap harperErrorMap]. rewrite Hon.
  cbn [negb]. rewrite Hident, lookup_insert_eq, Htext, Hcaret.
  cbn [fmap list_fmap].
  destruct (_ =? _); [done|]. destruct (_ =? 0); done.
Qed.

Lemma onInput_space_on_clean_text_witness :
  let el := surface PlainField (lit "the cat ") 8 in
  content (onInput (Some tehAnalyzer) 0 (InsertText [SPACE]) idle el).1.2
  = lit "the cat ".
Proof.
  intros el.
  destruct (onInput_space_on_clean_text (Some tehAnalyzer) 0 idle el)
    as (Htext & _); [reflexivity|exact Htext].
Defined.

(** ** A record that belongs to another element *)

(** X18. A backspace in an element reverts nothing when the record of the
    last correction belongs to another element, wherever the caret is:
    the element is left as it is and the record is kept for the element
    it belongs to. *)
Theorem tryRevertCorrection_ignores_other_element
  (g : Globals) (el : Surface) (c : Correction) :
  lastAutoCorrection g = Some c ->
  corr_element c <> ident el ->
  tryRevertCorrection g el = (false, g, el) /\
  (onInput None 0 DeleteContentBackward g el).1 = (g, el).
Proof.
  intros Hslot Hother. apply Nat.eqb_neq in Hother.
  assert (tryRevertCorrection g el = (false, g, el)) as Hrun
    by (unfold tryRevertCorrection; by rewrite Hslot, Hother).
  split; [exact Hrun|]. unfold onInput. by rewrite Hslot, Hrun.
Qed.

Lemma tryRevertCorrection_ignores_other_element_witness :
  let other := {| corr_element := 2; originalWord := lit "has";
                  correctedWord := lit "have"; position_start := 2;
                  position_end := 7; timestamp := 0 |} in
  let g := {| harperErrorMap := ∅; autoCorrectEnabled := true;
              lastAutoCorrection := Some other |} in
  let el := surface PlainField (lit "I have") 6 in
  tryRevertCorrection g el = (false, g, el).
Proof.
  intros other g el.
  destruct (tryRevertCorrection_ignores_other_element g el other)
    as [Hrun _]; [reflexivity | cbn; lia | exact Hrun].
Defined.

(** ** The colour of a lint kind *)

Lemma startsWith_prefix (pat s : jsstring) :
  startsWith pat s = true <-> exists suffix, s = pat ++ suffix.
Proof.
  revert s. induction pat as [|p pat IH]; intros s; cbn [startsWith].
  - split; [by exists s|done].
  - destruct s as [|c s]; [split; [done|by intros [? ?]]|].
    rewrite andb_true_iff, N.eqb_eq, IH. split.
    + intros [-> [suffix ->]]. by exists suffix.
    + intros [suffix [= -> ->]]. split; [done|by exists suffix].
Qed.

Lemma includes_infix (s pat : jsstring) :
  includes s pat = true <-> exists before after, s = before ++ pat ++ after.
Proof.
  induction s as [|c s IH]; cbn [includes].
  - rewrite orb_false_r, startsWith_prefix. split.
    + intros [suffix Hs]. by exists [], suffix.
    + intros (before & after & Hs). symmetry in Hs.
      apply app_eq_nil in Hs as [-> [-> ->]%app_eq_nil]. by exists [].
  - rewrite orb_true_iff, startsWith_prefix, IH. split.
    + intros [[suffix ->]|(before & after & ->)].
      * by exists [], suffix.
      * by exists (c :: before), after.
    + intros (before & after & Hs). destruct before as [|b before].
      * left. by exists after.
      * right. injection Hs as -> ->. by exists before, after.
Qed.

(** A keyword occurs in a kind when some stretch of the kind becomes the
    keyword once its capitals are lowered. *)
Lemma includes_lowered (kind keyword : jsstring) :
  includes (toLowerCase kind) keyword = true <->
  exists before word after,
    kind = before ++ word ++ after /\ toLowerCase word = keyword.
Proof.
  rewrite includes_infix. unfold toLowerCase. split.
  - intros (before & after & Hkind).
    apply fmap_app_inv in Hkind as (k1 & rest & -> & Hrest & ->).
    symmetry in Hrest.
    apply fmap_app_inv in Hrest as (k2 & k3 & -> & -> & ->).
    by exists k1, k2, k3.
  - intros (before & word & after & -> & <-).
    eexists _, _. by rewrite !fmap_app.
Qed.

(** X20. The colour of a lint is decided by the first of the keywords
    spell, word, style and repetition, in this order, that occurs in its
    kind, whatever the case of the letters: red, green, orange, blue; a
    kind with none of them is gray. *)
Theorem getErrorColor_first_keyword_wins (kind : jsstring) :
  let occurs keyword :=
    exists before word after,
      kind = before ++ word ++ after /\ toLowerCase word = lit keyword in
  (occurs "spell"%string -> getErrorColor kind = lit "red") /\
  (~ occurs "spell"%string -> occurs "word"%string ->
     getErrorColor kind = lit "green") /\
  (~ occurs "spell"%string -> ~ occurs "word"%string ->
     occurs "style"%string -> getErrorColor kind = lit "orange") /\
  (~ occurs "spell"%string -> ~ occurs "word"%string ->
     ~ occurs "style"%string -> occurs "repetition"%string ->
     getErrorColor kind = lit "blue") /\
  (~ occurs "spell"%string -> ~ occurs "word"%string ->
     ~ occurs "style"%string -> ~ occurs "repetition"%string ->
     getErrorColor kind = lit "gray").
Proof.
  cbn zeta. unfold getErrorColor.
  pose proof (includes_lowered kind (lit "spell")) as Hspell.
  pose proof (includes_lowered kind (lit "word")) as Hword.
  pose proof (includes_lowered kind (lit "style")) as Hstyle.
  pose proof (includes_lowered kind (lit "repetition")) as Hrep.
  destruct (includes (toLowerCase kind) (lit "spell"));
    destruct (includes (toLowerCase kind) (lit "word"));
    destruct (includes (toLowerCase kind) (lit "style"));
    destruct (includes (toLowerCase kind) (lit "repetition"));
    repeat split; intros; try done;
    repeat match goal with
           | H : ~ _, I : _ <-> _ |- _ =>
               exfalso; apply H, I; reflexivity
           | H : ex _, I : false = true <-> _ |- _ =>
               apply I in H; discriminate
           end.
Qed.

Lemma getErrorColor_first_keyword_wins_witness :
  getErrorColor (lit "SpellCheck") = lit "red".
Proof.
  destruct (getErrorColor_first_keyword_wins (lit "SpellCheck"))
    as [Hred _].
  apply Hred. by exists [], (lit "Spell"), (lit "Check").
Defined.

(** ** No word before the caret *)

(** X21. [tryAutoCorrect] corrects nothing when no word ends at the
    caret: with the caret, moved back over one space, at the start of the
    text or behind white space. The records of the element are not even
    looked at. *)
Theorem tryAutoCorrect_needs_a_word
  (now : nat) (g : Globals) (el : Surface) :
  let caretPos := wordEnd (content el) (caret el) in
  caretPos = 0 \/ testWhiteSpaceAt (content el) (caretPos - 1) = true ->
  tryAutoCorrect now g el = (false, g, el).
Proof.
  cbn zeta. intros Hempty. unfold tryAutoCorrect.
  destruct (autoCorrectEnabled g); cbn [negb]; [|done].
  destruct (harperErrorMap g !! ident el) as [errors|]; [|done].
  assert (findWordStart (content el) (wordEnd (content el) (caret el))
          = wordEnd (content el) (caret el)) as ->.
  { destruct Hempty as [->|Hspace]; [done|].
    destruct (wordEnd (content el) (caret el)) as [|before]; [done|].
    cbn [findWordStart]. replace (S before - 1) with before in Hspace by lia.
    by rewrite Hspace. }
  by rewrite Nat.eqb_refl.
Qed.

Lemma tryAutoCorrect_needs_a_word_witness :
  let g := {| harperErrorMap :=
                {[ 1 := [{| err_start := 0; err_end := 3;
                            err_suggestions := [lit "the"] |}] ]};
              autoCorrectEnabled := true; lastAutoCorrection := None |} in
  let el := surface PlainField (lit "teh  ") 5 in
  tryAutoCorrect 0 g el = (false, g, el).
Proof.
  intros g el. apply tryAutoCorrect_needs_a_word. right. reflexivity.
Defined.
